(** * Kinship: a verification development for [kinship.py]

    The program keeps a family tree as a graph of [Person] objects that
    point at each other through their [parents] lists and [spouse]
    attributes, and answers how two people are related by a breadth-first
    search from each of them.

    Python objects are modelled as cells of a store: a reference is the
    index of a cell, [Person.__init__] allocates the next cell, and the
    methods of the program are computations over the store that may raise
    a Python exception.  Python dictionaries keep their insertion order
    and the program depends on it (the first shortest code wins), so a
    dictionary is an association list in insertion order. *)

From stdpp Require Import base option list strings.
From Stdlib Require Import Ascii.

Local Open Scope string_scope.
Local Open Scope stdpp_scope.
Local Open Scope nat_scope.
Local Open Scope list_scope.

(** ** The store and the outcome of a computation *)

Abbreviation ref := nat (only parsing).

Record Person := mkPerson {
  name : string;
  gender : string;
  parents : list ref;
  spouse : option ref
}.

Abbreviation heap := (list Person) (only parsing).

(** The exceptions the program can raise.  [KeyError] carries the string
    key that was missing, [KeyErrorObj] a missing [Person] key. *)
Inductive exn :=
| KeyError (k : string)
| KeyErrorObj (r : ref)
| IndexError
| ValueError.

(** [NoFuel] and [NoObject] are not Python behaviours: the first is the
    exhausted step budget of a loop of the model, the second the read of a
    reference that names no cell.  Both are shown not to occur. *)
Inductive res (A : Type) :=
| Ok (a : A)
| Raise (e : exn)
| NoFuel
| NoObject.
Arguments Ok {A} a.
Arguments Raise {A} e.
Arguments NoFuel {A}.
Arguments NoObject {A}.

Definition M (A : Type) : Type := heap → res A * heap.

Definition ret {A} (a : A) : M A := λ h, (Ok a, h).

Definition bind {A B} (m : M A) (k : A → M B) : M B :=
  λ h, match m h with
       | (Ok a, h') => k a h'
       | (Raise e, h') => (Raise e, h')
       | (NoFuel, h') => (NoFuel, h')
       | (NoObject, h') => (NoObject, h')
       end.

Definition raise {A} (e : exn) : M A := λ h, (Raise e, h).
Definition no_fuel {A} : M A := λ h, (NoFuel, h).
Definition get_heap : M heap := λ h, (Ok h, h).

Notation "x <- m ;; k" := (bind m (λ x, k))
  (at level 100, m at next level, right associativity,
   format "'[v' x  <-  m  ;;  '/' k ']'").
Notation "m ;;; k" := (bind m (λ _, k))
  (at level 100, right associativity).

(** [for x in l: body], with and without an accumulator. *)
Fixpoint foldM {A B} (f : B → A → M B) (b : B) (l : list A) : M B :=
  match l with
  | [] => ret b
  | x :: l' => b' <- f b x ;; foldM f b' l'
  end.

Fixpoint forM_ {A} (l : list A) (f : A → M unit) : M unit :=
  match l with
  | [] => ret tt
  | x :: l' => f x ;;; forM_ l' f
  end.

(** ** Python dictionaries *)

Section pydict.
Context {K V : Type} `{EqDecision K}.

Fixpoint dict_get (d : list (K * V)) (k : K) : option V :=
  match d with
  | [] => None
  | (k', v) :: d' => if decide (k' = k) then Some v else dict_get d' k
  end.

(** [k in d] *)
Definition dict_mem (k : K) (d : list (K * V)) : bool :=
  match dict_get d k with Some _ => true | None => false end.

(** [d[k] = v]: an existing key keeps its place, a new one goes last. *)
Fixpoint dict_set (d : list (K * V)) (k : K) (v : V) : list (K * V) :=
  match d with
  | [] => [(k, v)]
  | (k', v') :: d' =>
      if decide (k' = k) then (k, v) :: d' else (k', v') :: dict_set d' k v
  end.

Definition dict_keys (d : list (K * V)) : list K := d.*1.
Definition dict_values (d : list (K * V)) : list V := d.*2.
End pydict.

(** What a failed [d[k]] raises depends on the kind of key. *)
Class PyKey (K : Type) := key_error : K → exn.
#[global] Instance PyKey_string : PyKey string := KeyError.
#[global] Instance PyKey_ref : PyKey nat := KeyErrorObj.

(** [d[k]] *)
Definition dict_lookup {K V} `{EqDecision K} `{PyKey K}
    (d : list (K * V)) (k : K) : M V :=
  match dict_get d k with
  | Some v => ret v
  | None => raise (key_error k)
  end.

(** [l[i]] *)
Definition list_index {A} (l : list A) (i : nat) : M A :=
  match l !! i with
  | Some x => ret x
  | None => raise IndexError
  end.

(** ** Strings *)

(** [sub in s] *)
Fixpoint str_in (sub s : string) : bool :=
  String.prefix sub s ||
  match s with
  | EmptyString => false
  | String _ s' => str_in sub s'
  end.

Fixpoint str_count (c : ascii) (s : string) : nat :=
  match s with
  | EmptyString => 0
  | String c' s' => (if decide (c' = c) then 1 else 0) + str_count c s'
  end.

(** [min(l, key=len)]: the first element of least length. *)
Fixpoint min_len_from (best : string) (l : list string) : string :=
  match l with
  | [] => best
  | s :: l' =>
      if String.length s <? String.length best
      then min_len_from s l' else min_len_from best l'
  end.

Definition py_min_len (l : list string) : M string :=
  match l with
  | [] => raise ValueError
  | s :: l' => ret (min_len_from s l')
  end.

(** ** class Person *)

Definition get_person (r : ref) : M Person :=
  λ h, match h !! r with
       | Some p => (Ok p, h)
       | None => (NoObject, h)
       end.

Definition put_person (r : ref) (p : Person) : M unit :=
  λ h, (Ok tt, <[r := p]> h).

Definition attr_name (r : ref) : M string := p <- get_person r ;; ret (name p).
Definition attr_gender (r : ref) : M string := p <- get_person r ;; ret (gender p).
Definition attr_parents (r : ref) : M (list ref) := p <- get_person r ;; ret (parents p).
Definition attr_spouse (r : ref) : M (option ref) := p <- get_person r ;; ret (spouse p).

(** [Person(name, gender)]: a new object with no parents and no spouse. *)
Definition Person_init (name gender : string) : M ref :=
  λ h, (Ok (length h), h ++ [mkPerson name gender [] None]).

(** [p] after [p.parents.append(parent)] *)
Definition with_parent (p : Person) (parent : ref) : Person :=
  mkPerson (name p) (gender p) (parents p ++ [parent]) (spouse p).

(** [p] after [p.spouse = sp] *)
Definition with_spouse (p : Person) (sp : ref) : Person :=
  mkPerson (name p) (gender p) (parents p) (Some sp).

Definition add_parent (self parent : ref) : M unit :=
  p <- get_person self ;;
  put_person self (with_parent p parent).

Definition set_spouse (self spouse : ref) : M unit :=
  p <- get_person self ;;
  put_person self (with_spouse p spouse).

(** The body of [for parent in person.parents]. *)
Definition visit_parent (personpath : string)
    (st : list (ref * string) * list ref) (parent : ref)
    : list (ref * string) * list ref :=
  if dict_mem parent st.1 then st
  else (dict_set st.1 parent (personpath +:+ "P"), st.2 ++ [parent]).

(** The spouse step that ends an iteration of the [while] loop. *)
Definition visit_spouse (personpath : string) (sp : option ref)
    (st : list (ref * string) * list ref)
    : list (ref * string) * list ref :=
  match sp with
  | Some s =>
      if negb (str_in "S" personpath) && negb (dict_mem s st.1)
      then (dict_set st.1 s (personpath +:+ "S"), st.2 ++ [s])
      else st
  | None => st
  end.

(** One iteration of the [while] loop, [person] being [queue.pop(0)] and
    [queue] what is left. *)
Definition loop_body (cdict : list (ref * string)) (person : ref)
    (queue : list ref) : M (list (ref * string) * list ref) :=
  personpath <- dict_lookup cdict person ;;
  ps <- attr_parents person ;;
  let st := foldl (visit_parent personpath) (cdict, queue) ps in
  sp <- attr_spouse person ;;
  ret (visit_spouse personpath sp st).

Fixpoint connections_loop (fuel : nat) (cdict : list (ref * string))
    (queue : list ref) : M (list (ref * string)) :=
  match queue with
  | [] => ret cdict
  | person :: queue =>
      match fuel with
      | 0 => no_fuel
      | S fuel =>
          st <- loop_body cdict person queue ;;
          connections_loop fuel st.1 st.2
      end
  end.

(** [Person.connections].  The loop runs under a budget of one iteration
    per object of the store; [connections_spec] shows it is enough. *)
Definition connections (self : ref) : M (list (ref * string)) :=
  h <- get_heap ;;
  connections_loop (length h) (dict_set [] self "") [self].

(** The state of the loop after [n] iterations (or at its exit, if that
    comes earlier). *)
Fixpoint loop_iter (n : nat) (cdict : list (ref * string)) (queue : list ref)
    : M (list (ref * string) * list ref) :=
  match n, queue with
  | S n, person :: queue =>
      st <- loop_body cdict person queue ;;
      loop_iter n st.1 st.2
  | _, _ => ret (cdict, queue)
  end.

(** [Person.relation_to].  The term table of the module [relationships]
    is not part of the program text: it is a parameter, a dictionary from
    combined codes to dictionaries from genders to terms. *)
Definition relation_to
    (relationships : list (string * list (string * string)))
    (self other : ref) : M (option string) :=
  selfconnections <- connections self ;;
  personconnections <- connections other ;;
  let sharedkeys :=
    foldl (λ sharedkeys key,
             if dict_mem key personconnections
             then sharedkeys ++ [key] else sharedkeys)
          [] (dict_keys selfconnections) in
  (* [sharedkeys.__len__ == 0] compares a bound method with a number and
     never holds: that [return None] is not taken *)
  lcr <- foldM (λ lcr key,
                  sp <- dict_lookup selfconnections key ;;
                  pp <- dict_lookup personconnections key ;;
                  ret (dict_set lcr key (sp +:+ ":" +:+ pp)))
               [] sharedkeys ;;
  if length lcr =? 0 then ret None
  else
    lcrpath <- py_min_len (dict_values lcr) ;;
    if dict_mem lcrpath relationships then
      entry <- dict_lookup relationships lcrpath ;;
      g <- attr_gender self ;;
      term <- dict_lookup entry g ;;
      ret (Some term)
    else ret (Some "distant relative").

(** ** class Family *)

(** The loaded JSON document: [dict["individuals"]], [dict["parents"]] and
    [dict["couples"]]. *)
Record Dataset := mkDataset {
  ds_individuals : list (string * string);
  ds_parents : list (string * list string);
  ds_couples : list (list string)
}.

Record Family := mkFamily {
  people : list (string * ref);
  dict : Dataset
}.

(** [for key in dict["individuals"]] *)
Definition init_individuals (dict : Dataset) : M (list (string * ref)) :=
  foldM (λ people key,
           g <- dict_lookup (ds_individuals dict) key ;;
           newperson <- Person_init key g ;;
           nm <- attr_name newperson ;;
           ret (dict_set people nm newperson))
        [] (dict_keys (ds_individuals dict)).

(** [for person in dict["parents"]] *)
Definition init_parents (dict : Dataset) (people : list (string * ref))
    : M unit :=
  forM_ (dict_keys (ds_parents dict)) (λ person,
    personobj <- dict_lookup people person ;;
    ps <- dict_lookup (ds_parents dict) person ;;
    forM_ ps (λ parent,
      parentobj <- dict_lookup people parent ;;
      add_parent personobj parentobj)).

(** The body of [for pair in dict["couples"]]. *)
Definition init_couple (people : list (string * ref)) (pair : list string)
    : M unit :=
  if negb (length pair =? 0) then
    personone <- list_index pair 0 ;;
    persononeobj <- dict_lookup people personone ;;
    persontwo <- list_index pair 1 ;;
    persontwoobj <- dict_lookup people persontwo ;;
    set_spouse persononeobj persontwoobj ;;;
    set_spouse persontwoobj persononeobj
  else ret tt.

Definition init_couples (people : list (string * ref))
    (couples : list (list string)) : M unit :=
  forM_ couples (init_couple people).

(** [Family.__init__] *)
Definition Family_init (dict : Dataset) : M Family :=
  people <- init_individuals dict ;;
  init_parents dict people ;;;
  init_couples people (ds_couples dict) ;;;
  ret (mkFamily people dict).

(** [Family.relation] *)
Definition relation
    (relationships : list (string * list (string * string)))
    (self : Family) (name_one name_two : string) : M (option string) :=
  persononeobj <- dict_lookup (people self) name_one ;;
  persontwoobj <- dict_lookup (people self) name_two ;;
  relation_to relationships persononeobj persontwoobj.

(** ** Graphs, walks and well-formed stores *)

(** Where one step of a path code leads from [r]: ["P"] to each parent,
    ["S"] to the spouse. *)
Definition step (h : heap) (r : ref) (c : ascii) : list ref :=
  match h !! r with
  | Some p =>
      if decide (c = "P"%char) then parents p
      else if decide (c = "S"%char) then option_list (spouse p)
      else []
  | None => []
  end.

(** [walk h x path y]: applying the steps of [path] in order from [x] can
    arrive at [y]. *)
Fixpoint walk (h : heap) (x : ref) (path : string) (y : ref) : bool :=
  match path with
  | EmptyString => bool_decide (x = y)
  | String c path' => existsb (λ z, walk h z path' y) (step h x c)
  end.

(** A valid path takes at most one spouse step. *)
Definition valid_path (h : heap) (x : ref) (path : string) (y : ref) : bool :=
  walk h x path y && bool_decide (str_count "S" path ≤ 1).

(** A path of parent steps only. *)
Definition parent_path (path : string) : bool :=
  str_count "P" path =? String.length path.

(** Every reference held by an object of the store names an object of
    the store, as it always does for Python objects. *)
Definition person_closed (n : nat) (p : Person) : bool :=
  forallb (λ r, r <? n) (parents p) &&
  match spouse p with Some s => s <? n | None => true end.

Definition heap_closed (h : heap) : bool :=
  forallb (person_closed (length h)) h.

(** A family over a store: names resolve to objects of a closed store. *)
Definition family_wf (fam : Family) (h : heap) : bool :=
  heap_closed h &&
  forallb (λ n, match dict_get (people fam) n with
                | Some r => r <? length h
                | None => false
                end)
          (dict_keys (people fam)).

(** Spouse links are symmetric. *)
Definition spouse_symmetric (h : heap) : Prop :=
  ∀ a b pa, h !! a = Some pa → spouse pa = Some b →
    ∃ pb, h !! b = Some pb ∧ spouse pb = Some a.

(** ** Definitions of the statements and of the proofs *)

Definition readonly {A} (m : M A) : Prop := ∀ h, (m h).2 = h.

(** The steps the search takes from a person whose recorded path is [pu]:
    to every parent, and to the spouse if [pu] has no spouse step yet. *)
Definition allowed (pu : string) (c : ascii) : Prop :=
  c = "P"%char ∨ (c = "S"%char ∧ str_count "S" pu = 0).

Definition plen (e : ref * string) : nat := String.length e.2.

(** [done] lists the persons already taken from the queue.  The keys of
    the dictionary are, in insertion order, the persons enqueued so far:
    those done, then those waiting.  Paths are recorded in order of
    length, and no recorded path is more than one step longer than the
    path of the person at the head of the queue. *)
Record bfs_inv (h : heap) (x : ref) (done : list ref)
    (cdict : list (ref * string)) (queue : list ref) : Prop := {
  inv_keys : dict_keys cdict = done ++ queue;
  inv_nodup : NoDup (dict_keys cdict);
  inv_bound : ∀ k, k ∈ dict_keys cdict → k < length h;
  inv_start : cdict !! 0 = Some (x, "");
  inv_walk : ∀ e, e ∈ cdict →
    walk h x e.2 e.1 = true ∧ str_count "S" e.2 ≤ 1;
  inv_sorted : ∀ i j ei ej, i ≤ j →
    cdict !! i = Some ei → cdict !! j = Some ej → plen ei ≤ plen ej;
  inv_front : ∀ u e,
    cdict !! length done = Some u → e ∈ cdict → plen e ≤ S (plen u);
  inv_closure : ∀ k pk c q,
    k ∈ done → dict_get cdict k = Some pk → allowed pk c → q ∈ step h k c →
    ∃ pq, dict_get cdict q = Some pq ∧ String.length pq ≤ S (String.length pk)
}.

(** The keys of [dA] that are keys of [dB], in the order of [dA]. *)
Definition shared_keys (dA dB : list (ref * string)) : list ref :=
  List.filter (λ k, dict_mem k dB) (dict_keys dA).

(** The combined code of a shared key. *)
Definition combined (dA dB : list (ref * string)) (k : ref) : string :=
  default "" (dict_get dA k) +:+ ":" +:+ default "" (dict_get dB k).

(** The outcome of the table lookup for the chosen code. *)
Definition term_for (table : list (string * list (string * string)))
    (h : heap) (self : ref) (lcrpath : string) : res (option string) * heap :=
  match dict_get table lcrpath with
  | None => (Ok (Some "distant relative"), h)
  | Some entry =>
      match h !! self with
      | Some p =>
          match dict_get entry (gender p) with
          | Some t => (Ok (Some t), h)
          | None => (Raise (KeyError (gender p)), h)
          end
      | None => (NoObject, h)
      end
  end.

(** Distinct names resolve to distinct objects. *)
Definition people_inj (people : list (string * ref)) : Prop :=
  ∀ n m r, dict_get people n = Some r → dict_get people m = Some r → n = m.

(** Names resolve to objects of the store. *)
Definition people_valid (people : list (string * ref)) (h : heap) : Prop :=
  ∀ n r, dict_get people n = Some r → r < length h.

Definition fresh_person (p : Person) : Prop :=
  parents p = [] ∧ spouse p = None.

Definition in_people (people : list (string * ref)) (r : ref) : Prop :=
  ∃ n, dict_get people n = Some r.

(** The second loop sets no spouse. *)
Definition no_spouse (h : heap) : Prop :=
  ∀ r p, h !! r = Some p → spouse p = None.

(** Every name the parents and couples data mention. *)
Definition names_of (d : Dataset) : list string :=
  dict_keys (ds_parents d) ++ concat (dict_values (ds_parents d)) ++
  concat (ds_couples d).

Definition registered (d : Dataset) (n : string) : Prop :=
  n ∈ dict_keys (ds_individuals d).

(** ** Examples *)

Module Examples.

(** A small term table in the shape of the one the program imports. *)
Definition table : list (string * list (string * string)) :=
  [ ("P:P", [("f", "sister"); ("m", "brother")]);
    ("P:", [("f", "daughter"); ("m", "son")]);
    (":P", [("f", "mother"); ("m", "father")]);
    ("S:", [("f", "wife"); ("m", "husband")]);
    (":S", [("f", "wife"); ("m", "husband")]) ].

(** Alice and Bob are the children of Carol and Dan; Alice married Eve. *)
Definition siblings : Dataset :=
  mkDataset
    [("Alice", "f"); ("Bob", "m"); ("Carol", "f"); ("Dan", "m"); ("Eve", "f")]
    [("Alice", ["Carol"; "Dan"]); ("Bob", ["Carol"; "Dan"])]
    [["Alice"; "Eve"]; []].

(** Xi married Wen, a daughter of his great-grandfather Yul.  Zoe, the
    wife of Yul, is also the mother of Rae, a grandmother of Yul. *)
Definition remarried : Dataset :=
  mkDataset
    [("Xi", "m"); ("Avi", "f"); ("Bea", "f"); ("Yul", "m"); ("Wen", "f");
     ("Zoe", "f"); ("Quin", "m"); ("Rae", "f")]
    [("Xi", ["Avi"]); ("Avi", ["Bea"]); ("Bea", ["Yul"]); ("Wen", ["Yul"]);
     ("Yul", ["Quin"]); ("Quin", ["Rae"]); ("Rae", ["Zoe"])]
    [["Xi"; "Wen"]; ["Yul"; "Zoe"]].

Definition remarried_heap : heap :=
  [ mkPerson "Xi" "m" [1] (Some 4);
    mkPerson "Avi" "f" [2] None;
    mkPerson "Bea" "f" [3] None;
    mkPerson "Yul" "m" [6] (Some 5);
    mkPerson "Wen" "f" [3] (Some 0);
    mkPerson "Zoe" "f" [] (Some 3);
    mkPerson "Quin" "m" [7] None;
    mkPerson "Rae" "f" [5] None ].

(** The same family without the ancestors of Yul. *)
Definition stepmother : Dataset :=
  mkDataset
    [("Xi", "m"); ("Avi", "f"); ("Bea", "f"); ("Yul", "m"); ("Wen", "f");
     ("Zoe", "f")]
    [("Xi", ["Avi"]); ("Avi", ["Bea"]); ("Bea", ["Yul"]); ("Wen", ["Yul"])]
    [["Xi"; "Wen"]; ["Yul"; "Zoe"]].

Definition stepmother_heap : heap :=
  [ mkPerson "Xi" "m" [1] (Some 4);
    mkPerson "Avi" "f" [2] None;
    mkPerson "Bea" "f" [3] None;
    mkPerson "Yul" "m" [] (Some 5);
    mkPerson "Wen" "f" [3] (Some 0);
    mkPerson "Zoe" "f" [] (Some 3) ].

(** Ann is named in two couples. *)
Definition two_couples : Dataset :=
  mkDataset [("Ann", "f"); ("Bob", "m"); ("Cy", "m")] []
            [["Ann"; "Bob"]; ["Ann"; "Cy"]].

(** A pair of one name, and that name is not registered. *)
Definition lone_unknown : Dataset :=
  mkDataset [("Ann", "f")] [] [["Zed"]].

(** A pair of one registered name. *)
Definition lone_known : Dataset :=
  mkDataset [("Ann", "f"); ("Bob", "m")] [("Ann", ["Bob"])] [[]; ["Ann"]].

Definition siblings_family : Family :=
  mkFamily [("Alice", 0); ("Bob", 1); ("Carol", 2); ("Dan", 3); ("Eve", 4)]
           siblings.

Definition siblings_heap : heap :=
  [ mkPerson "Alice" "f" [2; 3] (Some 4);
    mkPerson "Bob" "m" [2; 3] None;
    mkPerson "Carol" "f" [] None;
    mkPerson "Dan" "m" [] None;
    mkPerson "Eve" "f" [] (Some 0) ].

(** Two objects that are each other's parent. *)
Definition cyclic_heap : heap :=
  [ mkPerson "Ouro" "m" [1] None; mkPerson "Boros" "f" [0] None ].

End Examples.

(** The calls a client can make after the construction. *)
Inductive query :=
| QConnections (self : ref)
| QRelationTo (self other : ref)
| QRelation (fam : Family) (name_one name_two : string).

(** The store a call leaves, whatever it returns or raises. *)
Definition after_query (table : list (string * list (string * string)))
    (h : heap) (q : query) : heap :=
  match q with
  | QConnections self => (connections self h).2
  | QRelationTo self other => (relation_to table self other h).2
  | QRelation fam name_one name_two => (relation table fam name_one name_two h).2
  end.

Definition after_queries (table : list (string * list (string * string)))
    (h : heap) (qs : list query) : heap :=
  foldl (after_query table) h qs.

(** ** The program's entry point *)

(** [main], from the loaded document on: opening the file and
    [json.load] are left to the caller, and the result is the line that
    [main] hands to [print]. *)
Definition main
    (relationships : list (string * list (string * string)))
    (familydata : Dataset) (person person_two : string) : M string :=
  family <- Family_init familydata ;;
  relation <- relation relationships family person person_two ;;
  match relation with
  | None => ret (person +:+ " is not related to " +:+ person_two)
  | Some relation => ret (person +:+ " is " +:+ person_two +:+ "'s " +:+ relation)
  end.

(** ** Definitions of the further properties *)

(** Every entry but the start's extends the recorded path of another key
    by one step the search takes from that key. *)
Definition path_tree (h : heap) (cdict : list (ref * string)) : Prop :=
  ∀ e, e ∈ cdict →
    e.2 = "" ∨
    ∃ u pu c, dict_get cdict u = Some pu ∧ allowed pu c ∧
              e.2 = pu +:+ String c "" ∧ e.1 ∈ step h u c.

(** The objects that the names [names] resolve to; a name that does not
    resolve is left out. *)
Definition resolve (people : list (string * ref)) (names : list string)
    : list ref :=
  omap (dict_get people) names.

(** The parents that the second loop of the construction appends to the
    object [r] while it goes through the keys [ks]. *)
Fixpoint added_parents (people : list (string * ref))
    (pdata : list (string * list string)) (ks : list string) (r : ref)
    : list ref :=
  match ks with
  | [] => []
  | k :: ks' =>
      (if decide (dict_get people k = Some r)
       then resolve people (default [] (dict_get pdata k)) else [])
      ++ added_parents people pdata ks' r
  end.

(** The object of every name carries that name, and the gender the
    dataset gives for it. *)
Definition labelled (d : Dataset) (people : list (string * ref)) (h : heap)
    : Prop :=
  ∀ n r, dict_get people n = Some r →
    ∃ p, h !! r = Some p ∧ name p = n ∧
         dict_get (ds_individuals d) n = Some (gender p).

(** The parents and the spouse of every object have names. *)
Definition people_closed (people : list (string * ref)) (h : heap) : Prop :=
  ∀ r p, h !! r = Some p →
    (∀ q, q ∈ parents p → in_people people q) ∧
    (∀ s, spouse p = Some s → in_people people s).

(** [p] after the objects [l] were appended to its parents, one by one. *)
Definition add_parents (p : Person) (l : list ref) : Person :=
  mkPerson (name p) (gender p) (parents p ++ l) (spouse p).

(** ** Definitions of the amended claims *)

(** The valid paths from [x] that the search is sure to match, given the
    dictionary [d] it returned: a path of parent steps only, or parent
    steps to a person whose recorded path has no spouse step, then one
    spouse step, then parent steps.  The start is such a person. *)
Definition covered_path (h : heap) (d : list (ref * string)) (x : ref)
    (q : string) (y : ref) : Prop :=
  (parent_path q = true ∧ walk h x q y = true) ∨
  ∃ q1 q2 u pu,
    q = q1 +:+ "S" +:+ q2 ∧
    parent_path q1 = true ∧ parent_path q2 = true ∧
    walk h x q1 u = true ∧
    dict_get d u = Some pu ∧ str_in "S" pu = false ∧
    walk h u ("S" +:+ q2) y = true.

Module Genders.

(** Ann is a child of Bob; her gender is one the table does not list. *)
Definition unlisted : Dataset :=
  mkDataset [("Ann", "x"); ("Bob", "m")] [("Ann", ["Bob"])] [].

Definition unlisted_family : Family :=
  mkFamily [("Ann", 0); ("Bob", 1)] unlisted.

Definition unlisted_heap : heap :=
  [ mkPerson "Ann" "x" [1] None; mkPerson "Bob" "m" [] None ].


End Genders.

(** ** Facts about the monad *)

Lemma bind_ok {A B} (m : M A) (k : A → M B) h a h' :
  m h = (Ok a, h') → bind m k h = k a h'.
Proof. intros E. unfold bind. by rewrite E. Qed.

Lemma bind_ok_inv {A B} (m : M A) (k : A → M B) h b h2 :
  bind m k h = (Ok b, h2) →
  ∃ a h1, m h = (Ok a, h1) ∧ k a h1 = (Ok b, h2).
Proof.
  unfold bind. destruct (m h) as [[a| | |] h1]; try discriminate.
  intros E. by exists a, h1.
Qed.

Lemma dict_lookup_ok {K V} `{EqDecision K} `{PyKey K} (d : list (K * V)) k v h :
  dict_get d k = Some v → dict_lookup d k h = (Ok v, h).
Proof. intros E. unfold dict_lookup. by rewrite E. Qed.

Lemma dict_lookup_raise {K V} `{EqDecision K} `{PyKey K} (d : list (K * V)) k h :
  dict_get d k = None → dict_lookup d k h = (Raise (key_error k), h).
Proof. intros E. unfold dict_lookup. by rewrite E. Qed.

Lemma get_person_ok r p h : h !! r = Some p → get_person r h = (Ok p, h).
Proof. intros E. unfold get_person. by rewrite E. Qed.

Lemma attr_name_ok r p h : h !! r = Some p → attr_name r h = (Ok (name p), h).
Proof. intros E. unfold attr_name. by rewrite (bind_ok _ _ _ _ _ (get_person_ok _ _ _ E)). Qed.

Lemma attr_gender_ok r p h : h !! r = Some p → attr_gender r h = (Ok (gender p), h).
Proof. intros E. unfold attr_gender. by rewrite (bind_ok _ _ _ _ _ (get_person_ok _ _ _ E)). Qed.

Lemma attr_parents_ok r p h : h !! r = Some p → attr_parents r h = (Ok (parents p), h).
Proof. intros E. unfold attr_parents. by rewrite (bind_ok _ _ _ _ _ (get_person_ok _ _ _ E)). Qed.

Lemma attr_spouse_ok r p h : h !! r = Some p → attr_spouse r h = (Ok (spouse p), h).
Proof. intros E. unfold attr_spouse. by rewrite (bind_ok _ _ _ _ _ (get_person_ok _ _ _ E)). Qed.

Create HintDb run.
#[local] Hint Resolve dict_lookup_ok get_person_ok attr_name_ok attr_gender_ok
  attr_parents_ok attr_spouse_ok : run.

(** Run the first computation of a sequence whose result is known. *)
Ltac run_bind := erewrite bind_ok; [|solve [eauto with run]].

(** ** Facts about dictionaries *)

Section pydict_facts.
Context {K V : Type} `{EqDecision K}.
Implicit Types (d : list (K * V)) (k : K) (v : V).

Lemma dict_get_None d k : dict_get d k = None ↔ k ∉ dict_keys d.
Proof.
  unfold dict_keys. induction d as [|[k' v'] d IH]; simpl.
  - split; [intros _; apply not_elem_of_nil | done].
  - rewrite not_elem_of_cons. destruct (decide (k' = k)) as [->|Hne].
    + split; [done | intros [? _]; done].
    + rewrite IH. split; [intros ?; split; [congruence|done] | tauto].
Qed.

Lemma dict_get_Some_elem d k v : dict_get d k = Some v → (k, v) ∈ d.
Proof.
  induction d as [|[k' v'] d IH]; simpl; [done|].
  destruct (decide (k' = k)) as [->|Hne].
  - intros [= ->]. apply list_elem_of_here.
  - intros E. apply list_elem_of_further. auto.
Qed.

Lemma dict_get_Some_key d k v : dict_get d k = Some v → k ∈ dict_keys d.
Proof.
  intros E. apply dict_get_Some_elem in E. unfold dict_keys.
  apply list_elem_of_fmap. by exists (k, v).
Qed.

Lemma dict_get_is_Some d k : is_Some (dict_get d k) ↔ k ∈ dict_keys d.
Proof.
  split.
  - intros [v E]. by eapply dict_get_Some_key.
  - intros Hin. destruct (dict_get d k) eqn:E; [done|].
    by apply dict_get_None in E.
Qed.

Lemma elem_dict_get d k v :
  NoDup (dict_keys d) → (k, v) ∈ d → dict_get d k = Some v.
Proof.
  unfold dict_keys. induction d as [|[k' v'] d IH]; simpl.
  - intros _ Hin. by apply elem_of_nil in Hin.
  - intros Hnd Hin. apply NoDup_cons in Hnd as [Hk' Hnd].
    apply elem_of_cons in Hin as [[= -> ->]|Hin].
    + by rewrite decide_True.
    + rewrite decide_False; [by apply IH|].
      intros ->. apply Hk'. apply list_elem_of_fmap. by exists (k, v).
Qed.

Lemma dict_mem_true k d : dict_mem k d = true ↔ k ∈ dict_keys d.
Proof.
  unfold dict_mem. rewrite <- dict_get_is_Some.
  destruct (dict_get d k); split; try done.
Qed.

Lemma dict_mem_false k d : dict_mem k d = false ↔ k ∉ dict_keys d.
Proof.
  rewrite <- dict_mem_true. by destruct (dict_mem k d).
Qed.

Lemma dict_get_app d1 d2 k :
  dict_get (d1 ++ d2) k =
  match dict_get d1 k with Some v => Some v | None => dict_get d2 k end.
Proof.
  induction d1 as [|[k' v'] d1 IH]; simpl; [done|].
  by destruct (decide (k' = k)).
Qed.

Lemma dict_set_fresh d k v :
  dict_get d k = None → dict_set d k v = d ++ [(k, v)].
Proof.
  induction d as [|[k' v'] d IH]; simpl; [done|].
  destruct (decide (k' = k)); [done|]. intros E. by rewrite IH.
Qed.

Lemma dict_get_set_eq d k v : dict_get (dict_set d k v) k = Some v.
Proof.
  induction d as [|[k' v'] d IH]; simpl.
  - by rewrite decide_True.
  - destruct (decide (k' = k)) as [->|Hne]; simpl.
    + by rewrite decide_True.
    + by rewrite decide_False.
Qed.

Lemma dict_get_set_ne d k k' v :
  k ≠ k' → dict_get (dict_set d k v) k' = dict_get d k'.
Proof.
  intros Hne. induction d as [|[k1 v1] d IH]; simpl.
  - by rewrite decide_False.
  - destruct (decide (k1 = k)) as [->|Hne1]; simpl.
    + by rewrite !decide_False.
    + by rewrite IH.
Qed.

Lemma dict_keys_app d1 d2 : dict_keys (d1 ++ d2) = dict_keys d1 ++ dict_keys d2.
Proof. unfold dict_keys. apply fmap_app. Qed.
End pydict_facts.

(** ** Facts about strings *)

Lemma str_app_cons c (s t : string) : String c s +:+ t = String c (s +:+ t).
Proof. reflexivity. Qed.

Lemma str_length_app (s t : string) :
  String.length (s +:+ t) = String.length s + String.length t.
Proof. induction s as [|c s IH]; simpl; [done|]. by rewrite <- IH. Qed.

Lemma str_count_app c (s t : string) :
  str_count c (s +:+ t) = str_count c s + str_count c t.
Proof.
  induction s as [|c' s IH]; simpl; [done|].
  change (String.append s t) with (s +:+ t). rewrite IH. lia.
Qed.

Lemma str_count_le c (s : string) : str_count c s ≤ String.length s.
Proof. induction s as [|c' s IH]; simpl; [done|]. case_decide; lia. Qed.

Lemma str_in_S (s : string) : str_in "S" s = false ↔ str_count "S" s = 0.
Proof.
  induction s as [|c s IH]; [done|].
  cbn [str_in String.prefix str_count].
  destruct (ascii_dec "S" c) as [<-|Hne].
  - rewrite decide_True by done. by destruct s.
  - rewrite decide_False by congruence. exact IH.
Qed.

(** ** Computations that leave the store as it is *)

Lemma readonly_ret {A} (a : A) : readonly (ret a).
Proof. done. Qed.

Lemma readonly_raise {A} e : readonly (@raise A e).
Proof. done. Qed.

Lemma readonly_bind {A B} (m : M A) (k : A → M B) :
  readonly m → (∀ a, readonly (k a)) → readonly (bind m k).
Proof.
  intros Hm Hk h. unfold bind. specialize (Hm h).
  destruct (m h) as [[a| | |] h1]; simpl in *; subst; try done. apply Hk.
Qed.

Lemma readonly_get_person r : readonly (get_person r).
Proof. intros h. unfold get_person. by destruct (h !! r). Qed.

Lemma readonly_dict_lookup {K V} `{EqDecision K} `{PyKey K}
    (d : list (K * V)) k : readonly (dict_lookup d k).
Proof. unfold dict_lookup. destruct (dict_get d k); [apply readonly_ret | apply readonly_raise]. Qed.

Lemma readonly_foldM {A B} (f : B → A → M B) l :
  (∀ b x, readonly (f b x)) → ∀ b, readonly (foldM f b l).
Proof.
  intros Hf. induction l as [|x l IH]; intros b; simpl.
  - apply readonly_ret.
  - apply readonly_bind; [apply Hf | intros b'; apply IH].
Qed.

Create HintDb readonly.
#[local] Hint Resolve readonly_ret readonly_raise readonly_get_person
  readonly_dict_lookup : readonly.

Ltac readonly_tac :=
  repeat first
    [ solve [auto with readonly]
    | apply readonly_bind; [|intros ?]
    | apply readonly_foldM; intros ? ? ].

Lemma readonly_attr_parents r : readonly (attr_parents r).
Proof. unfold attr_parents. readonly_tac. Qed.

Lemma readonly_attr_spouse r : readonly (attr_spouse r).
Proof. unfold attr_spouse. readonly_tac. Qed.

Lemma readonly_attr_gender r : readonly (attr_gender r).
Proof. unfold attr_gender. readonly_tac. Qed.

#[local] Hint Resolve readonly_attr_parents readonly_attr_spouse
  readonly_attr_gender : readonly.

Lemma readonly_loop_body cdict person queue :
  readonly (loop_body cdict person queue).
Proof. unfold loop_body. readonly_tac. Qed.

Lemma readonly_connections_loop fuel :
  ∀ cdict queue, readonly (connections_loop fuel cdict queue).
Proof.
  induction fuel as [|fuel IH]; intros cdict [|person queue]; simpl;
    try apply readonly_ret; [done|].
  apply readonly_bind; [apply readonly_loop_body | intros st; apply IH].
Qed.

Lemma readonly_connections self : readonly (connections self).
Proof.
  unfold connections. apply readonly_bind; [done|].
  intros h. apply readonly_connections_loop.
Qed.

#[local] Hint Resolve readonly_connections : readonly.

Lemma readonly_py_min_len l : readonly (py_min_len l).
Proof. destruct l; simpl; auto with readonly. Qed.

#[local] Hint Resolve readonly_py_min_len : readonly.

Lemma readonly_relation_to table self other :
  readonly (relation_to table self other).
Proof.
  unfold relation_to. readonly_tac.
  match goal with |- context [?n =? 0] => destruct (n =? 0) end; readonly_tac.
  match goal with |- context [dict_mem ?c table] => destruct (dict_mem c table) end;
    readonly_tac.
Qed.

Lemma readonly_relation table fam name_one name_two :
  readonly (relation table fam name_one name_two).
Proof.
  unfold relation.
  apply readonly_bind; [auto with readonly | intros persononeobj].
  apply readonly_bind; [auto with readonly | intros persontwoobj].
  apply readonly_relation_to.
Qed.

(** ** Walks *)

Lemma walk_nil h x y : walk h x "" y = true ↔ x = y.
Proof. simpl. by rewrite bool_decide_eq_true. Qed.

Lemma walk_cons h x c path y :
  walk h x (String c path) y = true ↔
  ∃ z, z ∈ step h x c ∧ walk h z path y = true.
Proof.
  simpl. rewrite existsb_exists. setoid_rewrite <- list_elem_of_In. done.
Qed.

Lemma walk_app h x p q z y :
  walk h x p z = true → walk h z q y = true → walk h x (p +:+ q) y = true.
Proof.
  revert x. induction p as [|c p IH]; intros x.
  - rewrite walk_nil. by intros ->.
  - rewrite str_app_cons, !walk_cons. intros (w & Hw & Hp) Hq.
    exists w. split; [done|]. by apply IH.
Qed.

Lemma walk_snoc h x p c z y :
  walk h x p z = true → y ∈ step h z c →
  walk h x (p +:+ String c "") y = true.
Proof.
  intros Hp Hy. apply (walk_app _ _ _ _ z); [done|].
  apply walk_cons. exists y. split; [done|]. by apply walk_nil.
Qed.

Lemma step_P h r p : h !! r = Some p → step h r "P" = parents p.
Proof. intros E. unfold step. by rewrite E. Qed.

Lemma step_S h r p : h !! r = Some p → step h r "S" = option_list (spouse p).
Proof. intros E. unfold step. by rewrite E. Qed.

(** In a closed store a step leads to an object of the store. *)
Lemma heap_closed_lookup h r p :
  heap_closed h = true → h !! r = Some p → person_closed (length h) p = true.
Proof.
  unfold heap_closed. rewrite forallb_forall. intros Hc E.
  apply Hc, list_elem_of_In. by eapply list_elem_of_lookup_2.
Qed.

Lemma step_closed h r c q :
  heap_closed h = true → q ∈ step h r c → q < length h.
Proof.
  intros Hc. unfold step. destruct (h !! r) as [p|] eqn:E.
  - pose proof (heap_closed_lookup _ _ _ Hc E) as Hp.
    unfold person_closed in Hp. apply andb_true_iff in Hp as [Hps Hsp].
    rewrite forallb_forall in Hps.
    destruct (decide (c = "P"%char)); [|destruct (decide (c = "S"%char))].
    + intros Hq. apply list_elem_of_In, Hps in Hq. by apply Nat.ltb_lt.
    + destruct (spouse p) as [s|]; simpl.
      * intros Hq. apply list_elem_of_singleton in Hq as ->. by apply Nat.ltb_lt.
      * intros Hq. by apply elem_of_nil in Hq.
    + intros Hq. by apply elem_of_nil in Hq.
  - intros Hq. by apply elem_of_nil in Hq.
Qed.

(** ** One iteration of the search *)

(** What the [for] loop over the parents adds: one entry, at the end, for
    each parent that is not yet a key. *)
Lemma visit_parents_spec personpath ps :
  ∀ cdict queue, NoDup (dict_keys cdict) →
  ∃ news,
    foldl (visit_parent personpath) (cdict, queue) ps
      = (cdict ++ news, queue ++ dict_keys news) ∧
    NoDup (dict_keys (cdict ++ news)) ∧
    (∀ e, e ∈ news → e.2 = personpath +:+ "P" ∧ e.1 ∈ ps) ∧
    (∀ q, q ∈ ps → q ∈ dict_keys (cdict ++ news)).
Proof.
  induction ps as [|q ps IH]; intros cdict queue Hnd; simpl.
  - exists []. rewrite !app_nil_r. split_and!; [done|done| |].
    + intros e He. by apply elem_of_nil in He.
    + intros q Hq. by apply elem_of_nil in Hq.
  - unfold visit_parent at 2. simpl. destruct (dict_mem q cdict) eqn:Hq.
    + destruct (IH cdict queue Hnd) as (news & E & Hnd' & Hnew & Hcov).
      exists news. split_and!; [done|done| |].
      * intros e He. destruct (Hnew e He) as [? ?].
        split; [done|]. by apply list_elem_of_further.
      * intros q' Hq'. apply elem_of_cons in Hq' as [->|Hq']; [|by apply Hcov].
        apply dict_mem_true in Hq. rewrite dict_keys_app.
        apply elem_of_app. by left.
    + apply dict_mem_false in Hq.
      rewrite dict_set_fresh by (by apply dict_get_None).
      destruct (IH (cdict ++ [(q, personpath +:+ "P")]) (queue ++ [q]))
        as (news & E & Hnd' & Hnew & Hcov).
      { rewrite dict_keys_app. apply NoDup_app. split; [done|].
        split; [|apply NoDup_singleton].
        intros k Hk Hk'. apply list_elem_of_singleton in Hk' as ->. done. }
      exists ((q, personpath +:+ "P") :: news).
      rewrite <- !app_assoc in *. split_and!; [done|done| |].
      * intros e He. apply elem_of_cons in He as [->|He].
        -- split; [done|]. apply list_elem_of_here.
        -- destruct (Hnew e He) as [? ?]. split; [done|].
           by apply list_elem_of_further.
      * intros q' Hq'. apply elem_of_cons in Hq' as [->|Hq']; [|by apply Hcov].
        rewrite !dict_keys_app. simpl. apply elem_of_app. right.
        apply list_elem_of_here.
Qed.

Lemma loop_body_spec h cdict u pu p queue :
  NoDup (dict_keys cdict) → dict_get cdict u = Some pu → h !! u = Some p →
  ∃ news,
    loop_body cdict u queue h
      = (Ok (cdict ++ news, queue ++ dict_keys news), h) ∧
    NoDup (dict_keys (cdict ++ news)) ∧
    (∀ e, e ∈ news →
       ∃ c, allowed pu c ∧ e.2 = pu +:+ String c "" ∧ e.1 ∈ step h u c) ∧
    (∀ c q, allowed pu c → q ∈ step h u c → q ∈ dict_keys (cdict ++ news)).
Proof.
  intros Hnd Hpu Hp.
  destruct (visit_parents_spec pu (parents p) cdict queue Hnd)
    as (news & E & Hnd1 & Hnew & Hcov).
  assert (Hrun : ∀ st, visit_spouse pu (spouse p)
                  (foldl (visit_parent pu) (cdict, queue) (parents p)) = st →
            loop_body cdict u queue h = (Ok st, h)).
  { intros st <-. unfold loop_body. by do 3 run_bind. }
  rewrite E in Hrun. unfold visit_spouse in Hrun. simpl in Hrun.
  assert (HnewP : ∀ e, e ∈ news →
    ∃ c, allowed pu c ∧ e.2 = pu +:+ String c "" ∧ e.1 ∈ step h u c).
  { intros e He. destruct (Hnew e He) as [He2 He1]. exists "P"%char.
    split; [by left|]. split; [done|]. by rewrite (step_P _ _ _ Hp). }
  assert (HcovP : ∀ q, q ∈ step h u "P" → q ∈ dict_keys (cdict ++ news)).
  { intros q. rewrite (step_P _ _ _ Hp). apply Hcov. }
  destruct (spouse p) as [s|] eqn:Hs.
  - destruct (str_in "S" pu) eqn:HS; simpl in Hrun.
    + (* the path has its spouse step already *)
      exists news. split_and!; [by apply Hrun|done|done|].
      intros c q [->|[-> Hc]]; [apply HcovP|].
      apply str_in_S in Hc. congruence.
    + apply str_in_S in HS.
      destruct (dict_mem s (cdict ++ news)) eqn:Hmem; simpl in Hrun.
      * (* the spouse is a key already *)
        exists news. split_and!; [by apply Hrun|done|done|].
        intros c q [->|[-> Hc]]; [apply HcovP|].
        rewrite (step_S _ _ _ Hp), Hs. simpl.
        intros Hq. apply list_elem_of_singleton in Hq as ->.
        by apply dict_mem_true.
      * (* the spouse is new *)
        apply dict_mem_false in Hmem.
        rewrite dict_set_fresh in Hrun by (by apply dict_get_None).
        exists (news ++ [(s, pu +:+ "S")]).
        rewrite !dict_keys_app in *. rewrite !app_assoc.
        split_and!.
        -- by apply Hrun.
        -- apply NoDup_app. split; [done|]. split; [|apply NoDup_singleton].
           intros k Hk Hk'. apply list_elem_of_singleton in Hk' as ->. done.
        -- intros e He. apply elem_of_app in He as [He|He]; [by apply HnewP|].
           apply list_elem_of_singleton in He as ->. exists "S"%char.
           split; [by right|]. split; [done|].
           rewrite (step_S _ _ _ Hp), Hs. apply list_elem_of_here.
        -- intros c q [->|[-> Hc]].
           ++ intros Hq. apply elem_of_app. left. by apply HcovP.
           ++ rewrite (step_S _ _ _ Hp), Hs. simpl.
              intros Hq. apply list_elem_of_singleton in Hq as ->.
              apply elem_of_app. right. apply list_elem_of_here.
  - exists news. split_and!; [by apply Hrun|done|done|].
    intros c q [->|[-> Hc]]; [apply HcovP|].
    rewrite (step_S _ _ _ Hp), Hs. simpl. intros Hq. by apply elem_of_nil in Hq.
Qed.

(** ** The invariant of the search *)

Lemma dict_entry_at (cdict : list (ref * string)) done u queue pu :
  NoDup (dict_keys cdict) → dict_keys cdict = done ++ u :: queue →
  dict_get cdict u = Some pu → cdict !! length done = Some (u, pu).
Proof.
  intros Hnd Hk Hpu.
  assert (Hu : dict_keys cdict !! length done = Some u).
  { rewrite Hk. by apply list_lookup_middle. }
  unfold dict_keys in Hu. rewrite list_lookup_fmap in Hu.
  destruct (cdict !! length done) as [[k pk]|] eqn:E; [|done].
  simpl in Hu. injection Hu as ->. f_equal. f_equal.
  apply list_elem_of_lookup_2 in E. apply (elem_dict_get _ _ _ Hnd) in E.
  congruence.
Qed.

Lemma elem_dict_keys (cdict : list (ref * string)) k :
  k ∈ dict_keys cdict ↔ ∃ e, e ∈ cdict ∧ e.1 = k.
Proof.
  unfold dict_keys. rewrite list_elem_of_fmap.
  split; [intros (e & -> & He) | intros (e & He & <-)]; by exists e.
Qed.

Lemma bfs_inv_init h x : x < length h → bfs_inv h x [] (dict_set [] x "") [x].
Proof.
  intros Hx. simpl. split; simpl; try done.
  - apply NoDup_singleton.
  - intros k Hk. by apply list_elem_of_singleton in Hk as ->.
  - intros e He. apply list_elem_of_singleton in He as ->. simpl.
    split; [by apply bool_decide_eq_true | lia].
  - intros [|i] [|j] ei ej _; simpl; try done. by intros [= <-] [= <-].
  - intros u e [= <-] He. apply list_elem_of_singleton in He as ->. lia.
  - intros k pk c q Hk. by apply elem_of_nil in Hk.
Qed.

Lemma plen_new (e : ref * string) pu c :
  e.2 = pu +:+ String c "" → plen e = S (String.length pu).
Proof. unfold plen. intros ->. rewrite str_length_app. simpl. lia. Qed.

(** An iteration of the loop keeps the invariant, and it cannot fail. *)
Lemma bfs_inv_step h x done cdict u queue :
  heap_closed h = true → bfs_inv h x done cdict (u :: queue) →
  ∃ cdict' queue',
    loop_body cdict u queue h = (Ok (cdict', queue'), h) ∧
    bfs_inv h x (done ++ [u]) cdict' queue'.
Proof.
  intros Hc [Hkeys Hnd Hbound Hstart Hwalk Hsorted Hfront Hclos].
  assert (Hu : u ∈ dict_keys cdict).
  { rewrite Hkeys. apply elem_of_app. right. apply list_elem_of_here. }
  destruct (proj2 (dict_get_is_Some cdict u) Hu) as [pu Hpu].
  destruct (lookup_lt_is_Some_2 h u (Hbound u Hu)) as [p Hp].
  destruct (loop_body_spec h cdict u pu p queue Hnd Hpu Hp)
    as (news & Hrun & Hnd' & Hnew & Hcov).
  pose proof (dict_entry_at _ _ _ _ _ Hnd Hkeys Hpu) as Hat.
  assert (Hold : ∀ e, e ∈ cdict → plen e ≤ S (String.length pu)).
  { intros e He. apply (Hfront _ e Hat He). }
  assert (Hlen : ∀ e, e ∈ news → plen e = S (String.length pu)).
  { intros e He. destruct (Hnew e He) as (c & _ & He2 & _).
    by eapply plen_new. }
  assert (Hget : ∀ k v, dict_get cdict k = Some v →
                        dict_get (cdict ++ news) k = Some v).
  { intros k v E. by rewrite dict_get_app, E. }
  exists (cdict ++ news), (queue ++ dict_keys news). split; [done|].
  split.
  - rewrite dict_keys_app, Hkeys, <- !app_assoc. done.
  - done.
  - intros k Hk. rewrite dict_keys_app in Hk.
    apply elem_of_app in Hk as [Hk|Hk]; [by apply Hbound|].
    apply elem_dict_keys in Hk as (e & He & <-).
    destruct (Hnew e He) as (c & _ & _ & Hst). by eapply step_closed.
  - rewrite lookup_app_l; [done|]. by eapply lookup_lt_Some.
  - intros e He. apply elem_of_app in He as [He|He]; [by apply Hwalk|].
    destruct (Hnew e He) as (c & Hall & He2 & Hst). rewrite He2.
    destruct (Hwalk (u, pu)) as [Hwu Hcu].
    { by apply dict_get_Some_elem. }
    simpl in Hwu, Hcu. split; [by eapply walk_snoc|].
    rewrite str_count_app. destruct Hall as [->|[-> Hz]]; simpl; lia.
  - intros i j ei ej Hij Hi Hj.
    destruct (decide (j < length cdict)) as [Hjl|Hjl].
    + rewrite lookup_app_l in Hi, Hj by lia. by apply (Hsorted i j).
    + rewrite (lookup_app_r cdict news j) in Hj by lia.
      apply list_elem_of_lookup_2 in Hj. rewrite (Hlen _ Hj).
      destruct (decide (i < length cdict)) as [Hil|Hil].
      * rewrite lookup_app_l in Hi by lia.
        apply list_elem_of_lookup_2 in Hi. by apply Hold.
      * rewrite (lookup_app_r cdict news i) in Hi by lia.
        apply list_elem_of_lookup_2 in Hi. by rewrite (Hlen _ Hi).
  - intros u' e Hu' He. rewrite length_app in Hu'. simpl in Hu'.
    assert (String.length pu ≤ plen u') as Hle.
    { assert (Hat' : (cdict ++ news) !! length done = Some (u, pu)).
      { rewrite lookup_app_l; [done|]. by eapply lookup_lt_Some. }
      change (String.length pu) with (plen (u, pu)).
      destruct (decide (length done + 1 < length cdict)) as [Hl|Hl].
      - rewrite lookup_app_l in Hu' by lia.
        eapply (Hsorted (length done) (length done + 1)); [lia|done|done].
      - rewrite (lookup_app_r cdict news) in Hu' by lia.
        apply list_elem_of_lookup_2 in Hu'. rewrite (Hlen _ Hu').
        unfold plen. simpl. lia. }
    apply elem_of_app in He as [He|He].
    + specialize (Hold e He). lia.
    + rewrite (Hlen e He). lia.
  - intros k pk c q Hk Hpk Hall Hq.
    apply elem_of_app in Hk as [Hk|Hk].
    + assert (Hk' : k ∈ dict_keys cdict).
      { rewrite Hkeys. apply elem_of_app. by left. }
      destruct (proj2 (dict_get_is_Some cdict k) Hk') as [pk' Hpk'].
      rewrite (Hget _ _ Hpk') in Hpk. injection Hpk as ->.
      destruct (Hclos k pk c q Hk Hpk' Hall Hq) as (pq & Hpq & Hle).
      exists pq. split; [by apply Hget | done].
    + apply list_elem_of_singleton in Hk as ->.
      rewrite (Hget _ _ Hpu) in Hpk. injection Hpk as <-.
      pose proof (Hcov c q Hall Hq) as Hin.
      apply elem_dict_keys in Hin as ([q' pq] & He & Heq). simpl in Heq. subst q'.
      exists pq. split; [by apply elem_dict_get|].
      apply elem_of_app in He as [He|He].
      * apply (Hold _ He).
      * rewrite <- (Hlen _ He). done.
Qed.

(** ** Termination of the search *)

Lemma NoDup_bounded_length (l : list nat) n :
  NoDup l → (∀ k, k ∈ l → k < n) → length l ≤ n.
Proof.
  intros Hnd Hb. rewrite <- (length_seq n 0).
  apply submseteq_length, NoDup_submseteq; [done|].
  intros k Hk. apply elem_of_seq. specialize (Hb k Hk). lia.
Qed.

(** The persons enqueued so far are at most as many as the store has
    objects. *)
Lemma bfs_inv_size h x done cdict queue :
  bfs_inv h x done cdict queue → length done + length queue ≤ length h.
Proof.
  intros [Hkeys Hnd Hbound _ _ _ _ _].
  rewrite <- length_app, <- Hkeys. by apply NoDup_bounded_length.
Qed.

Lemma connections_loop_total h x :
  heap_closed h = true →
  ∀ fuel done cdict queue,
    bfs_inv h x done cdict queue → length h ≤ length done + fuel →
    ∃ d, connections_loop fuel cdict queue h = (Ok d, h) ∧
         bfs_inv h x (dict_keys d) d [].
Proof.
  intros Hc. induction fuel as [|fuel IH]; intros done cdict queue Hinv Hfuel.
  - pose proof (bfs_inv_size _ _ _ _ _ Hinv) as Hsz.
    destruct queue as [|u queue]; [|simpl in Hsz; lia].
    exists cdict. split; [done|].
    pose proof (inv_keys _ _ _ _ _ Hinv) as Hk. rewrite app_nil_r in Hk.
    by rewrite Hk.
  - destruct queue as [|u queue].
    + exists cdict. split; [done|].
      pose proof (inv_keys _ _ _ _ _ Hinv) as Hk. rewrite app_nil_r in Hk.
      by rewrite Hk.
    + destruct (bfs_inv_step _ _ _ _ _ _ Hc Hinv) as (cdict' & queue' & Hrun & Hinv').
      destruct (IH _ _ _ Hinv') as (d & Hd & Hfin).
      { rewrite length_app. simpl. lia. }
      exists d. split; [|done]. simpl. by rewrite (bind_ok _ _ _ _ _ Hrun).
Qed.

(** More budget does not change the result. *)
Lemma connections_loop_fuel_mono fuel :
  ∀ fuel' cdict queue h d h',
    connections_loop fuel cdict queue h = (Ok d, h') → fuel ≤ fuel' →
    connections_loop fuel' cdict queue h = (Ok d, h').
Proof.
  induction fuel as [|fuel IH]; intros fuel' cdict [|u queue] h d h' E Hle;
    try (by destruct fuel'); try done.
  destruct fuel' as [|fuel']; [lia|]. simpl in *.
  apply bind_ok_inv in E as (st & h1 & Hst & E).
  rewrite (bind_ok _ _ _ _ _ Hst). apply IH; [done|lia].
Qed.

(** The loop, cut after [n] iterations, is in a state of the invariant. *)
Lemma loop_iter_inv h x :
  heap_closed h = true →
  ∀ n done cdict queue,
    bfs_inv h x done cdict queue →
    ∃ done' cdict' queue',
      loop_iter n cdict queue h = (Ok (cdict', queue'), h) ∧
      bfs_inv h x done' cdict' queue'.
Proof.
  intros Hc. induction n as [|n IH]; intros done cdict queue Hinv.
  - exists done, cdict, queue. split; [|done]. by destruct queue.
  - destruct queue as [|u queue].
    + by exists done, cdict, [].
    + destruct (bfs_inv_step _ _ _ _ _ _ Hc Hinv) as (cdict' & queue' & Hrun & Hinv').
      destruct (IH _ _ _ Hinv') as (done2 & cdict2 & queue2 & Hrun2 & Hinv2).
      exists done2, cdict2, queue2. split; [|done].
      simpl. by rewrite (bind_ok _ _ _ _ _ Hrun).
Qed.

(** [connections] returns, and its result is a final state of the search. *)
Lemma connections_spec h x :
  heap_closed h = true → x < length h →
  ∃ d, connections x h = (Ok d, h) ∧ bfs_inv h x (dict_keys d) d [].
Proof.
  intros Hc Hx.
  destruct (connections_loop_total h x Hc (length h) [] _ _ (bfs_inv_init h x Hx))
    as (d & Hd & Hfin); [simpl; lia|].
  exists d. split; [|done]. unfold connections.
  by rewrite (bind_ok get_heap _ h h h eq_refl).
Qed.

(** What the final state says about the returned dictionary. *)
Lemma final_start h x d :
  bfs_inv h x (dict_keys d) d [] → dict_get d x = Some "".
Proof.
  intros Hinv. apply elem_dict_get; [by eapply inv_nodup|].
  eapply list_elem_of_lookup_2, inv_start, Hinv.
Qed.

Lemma final_walk h x d y p :
  bfs_inv h x (dict_keys d) d [] → dict_get d y = Some p →
  walk h x p y = true ∧ str_count "S" p ≤ 1.
Proof.
  intros Hinv Hy. apply dict_get_Some_elem in Hy.
  apply (inv_walk _ _ _ _ _ Hinv (y, p) Hy).
Qed.

(** Whatever parent steps alone reach is a key, with a path no longer. *)
Lemma final_parents h x d :
  bfs_inv h x (dict_keys d) d [] →
  ∀ q z y pz,
    dict_get d z = Some pz → walk h z q y = true → parent_path q = true →
    ∃ py, dict_get d y = Some py ∧
          String.length py ≤ String.length pz + String.length q.
Proof.
  intros Hinv. unfold parent_path.
  induction q as [|c q IH]; intros z y pz Hz Hw HP.
  - apply walk_nil in Hw as <-. exists pz. split; [done|simpl; lia].
  - apply walk_cons in Hw as (w & Hw & Hwy).
    apply Nat.eqb_eq in HP. simpl in HP.
    pose proof (str_count_le "P" q) as Hle.
    destruct (decide (c = "P"%char)) as [->|Hne]; [|lia].
    destruct (inv_closure _ _ _ _ _ Hinv z pz "P"%char w) as (pw & Hpw & Hlw).
    { by eapply dict_get_Some_key. }
    { done. } { by left. } { done. }
    destruct (IH w y pw Hpw Hwy) as (py & Hpy & Hly).
    { apply Nat.eqb_eq. lia. }
    exists py. split; [done|]. simpl. lia.
Qed.

(** ** What [relation_to] computes *)

Lemma elem_shared_keys dA dB k :
  k ∈ shared_keys dA dB ↔ k ∈ dict_keys dA ∧ k ∈ dict_keys dB.
Proof.
  unfold shared_keys. rewrite list_elem_of_In, filter_In, <- list_elem_of_In.
  by rewrite dict_mem_true.
Qed.

Lemma NoDup_shared_keys dA dB :
  NoDup (dict_keys dA) → NoDup (shared_keys dA dB).
Proof.
  intros Hnd. apply NoDup_ListNoDup, List.NoDup_filter.
  by apply NoDup_ListNoDup.
Qed.

Lemma sharedkeys_fold (dB : list (ref * string)) keys :
  ∀ acc,
    foldl (λ sharedkeys key,
             if dict_mem key dB then sharedkeys ++ [key] else sharedkeys)
          acc keys
    = acc ++ List.filter (λ k, dict_mem k dB) keys.
Proof.
  induction keys as [|k keys IH]; intros acc; simpl.
  - by rewrite app_nil_r.
  - rewrite IH. destruct (dict_mem k dB); [|done].
    by rewrite <- app_assoc.
Qed.

Lemma lcr_fold (dA dB : list (ref * string)) h shared :
  ∀ acc,
    (∀ k, k ∈ shared → k ∈ dict_keys dA ∧ k ∈ dict_keys dB) →
    NoDup (dict_keys acc ++ shared) →
    foldM (λ lcr key,
             sp <- dict_lookup dA key ;;
             pp <- dict_lookup dB key ;;
             ret (dict_set lcr key (sp +:+ ":" +:+ pp)))
          acc shared h
    = (Ok (acc ++ map (λ k, (k, combined dA dB k)) shared), h).
Proof.
  induction shared as [|k shared IH]; intros acc Hin Hnd; simpl.
  - by rewrite app_nil_r.
  - destruct (Hin k) as [HkA HkB]; [apply list_elem_of_here|].
    apply dict_get_is_Some in HkA as [pa Hpa].
    apply dict_get_is_Some in HkB as [pb Hpb].
    apply NoDup_app in Hnd as (Hnd1 & Hnd2 & Hnd3).
    erewrite bind_ok; [|by do 2 run_bind].
    rewrite dict_set_fresh.
    2:{ apply dict_get_None. intros Hk. apply (Hnd2 k Hk), list_elem_of_here. }
    rewrite IH.
    + rewrite <- app_assoc. simpl. unfold combined. by rewrite Hpa, Hpb.
    + intros k' Hk'. apply Hin. by apply list_elem_of_further.
    + rewrite dict_keys_app, <- app_assoc. simpl.
      apply NoDup_app. split_and!; [done|done|done].
Qed.

Lemma min_len_from_spec l :
  ∀ best,
    min_len_from best l ∈ best :: l ∧
    ∀ s, s ∈ best :: l →
         String.length (min_len_from best l) ≤ String.length s.
Proof.
  induction l as [|s l IH]; intros best; simpl.
  - split; [apply list_elem_of_here|].
    intros s Hs. by apply list_elem_of_singleton in Hs as ->.
  - destruct (String.length s <? String.length best) eqn:Hlt.
    + apply Nat.ltb_lt in Hlt. destruct (IH s) as [Hin Hmin]. split.
      * by apply list_elem_of_further.
      * intros t Ht. apply elem_of_cons in Ht as [->|Ht]; [|by apply Hmin].
        specialize (Hmin s (list_elem_of_here _ _)). lia.
    + apply Nat.ltb_ge in Hlt. destruct (IH best) as [Hin Hmin]. split.
      * apply elem_of_cons in Hin as [->|Hin]; [apply list_elem_of_here|].
        by do 2 apply list_elem_of_further.
      * intros t Ht. apply elem_of_cons in Ht as [->|Ht].
        -- apply Hmin, list_elem_of_here.
        -- apply elem_of_cons in Ht as [->|Ht].
           ++ specialize (Hmin best (list_elem_of_here _ _)). lia.
           ++ by apply Hmin, list_elem_of_further.
Qed.

(** The first element wins when none is strictly shorter. *)
Lemma min_len_from_first l :
  ∀ best, (∀ s, s ∈ l → String.length best ≤ String.length s) →
          min_len_from best l = best.
Proof.
  induction l as [|s l IH]; intros best Hmin; simpl; [done|].
  pose proof (Hmin s (list_elem_of_here _ _)) as Hs.
  apply Nat.ltb_ge in Hs. rewrite Hs. apply IH.
  intros t Ht. by apply Hmin, list_elem_of_further.
Qed.

(** [relation_to], given what the two searches return. *)
Lemma relation_to_run table h a b dA dB :
  connections a h = (Ok dA, h) → connections b h = (Ok dB, h) →
  NoDup (dict_keys dA) →
  relation_to table a b h =
  match map (combined dA dB) (shared_keys dA dB) with
  | [] => (Ok None, h)
  | c :: cs => term_for table h a (min_len_from c cs)
  end.
Proof.
  intros HA HB Hnd. unfold relation_to.
  rewrite (bind_ok _ _ _ _ _ HA), (bind_ok _ _ _ _ _ HB).
  rewrite sharedkeys_fold. simpl. fold (shared_keys dA dB).
  erewrite bind_ok; [|apply lcr_fold].
  2:{ intros k. by rewrite elem_shared_keys. }
  2:{ simpl. by apply NoDup_shared_keys. }
  simpl. unfold dict_values. rewrite <- list_fmap_compose.
  change (fmap (snd ∘ (λ k, (k, combined dA dB k))))
    with (map (combined dA dB)).
  rewrite length_map, <- (length_map (combined dA dB)).
  destruct (map (combined dA dB) (shared_keys dA dB)) as [|c cs]; [done|].
  simpl. unfold py_min_len. erewrite bind_ok; [|reflexivity].
  unfold term_for, dict_mem.
  destruct (dict_get table (min_len_from c cs)) as [entry|] eqn:E; [|done].
  run_bind. unfold attr_gender, get_person, bind.
  destruct (h !! a) as [p|]; [|done]. unfold dict_lookup. simpl.
  by destruct (dict_get entry (gender p)).
Qed.

(** ** Construction of a family *)

Lemma forM_cons_inv {A} (f : A → M unit) x l h h' :
  forM_ (x :: l) f h = (Ok tt, h') →
  ∃ h1, f x h = (Ok tt, h1) ∧ forM_ l f h1 = (Ok tt, h').
Proof.
  simpl. intros E. apply bind_ok_inv in E as ([] & h1 & E1 & E2).
  by exists h1.
Qed.

(** A loop keeps what each of its iterations keeps. *)
Lemma forM_inv {A} (I : heap → Prop) (f : A → M unit) l :
  (∀ x h h', x ∈ l → I h → f x h = (Ok tt, h') → I h') →
  ∀ h h', I h → forM_ l f h = (Ok tt, h') → I h'.
Proof.
  induction l as [|x l IH]; intros Hf h h' HI E.
  - simpl in E. by injection E as <-.
  - apply forM_cons_inv in E as (h1 & E1 & E2).
    apply (IH (λ y k k' Hy, Hf y k k' (list_elem_of_further _ _ _ Hy)) h1);
      [|done].
    eapply Hf; [apply list_elem_of_here|done|done].
Qed.

(** A loop whose iterations either succeed and keep [I], or raise an
    exception of the kind [E], does the same as a whole. *)
Lemma forM_outcome {A} (I : heap → Prop) (E : exn → Prop)
    (f : A → M unit) l :
  (∀ x h, x ∈ l → I h →
     (∃ h', f x h = (Ok tt, h') ∧ I h') ∨
     (∃ e h', f x h = (Raise e, h') ∧ E e)) →
  ∀ h, I h →
    (∃ h', forM_ l f h = (Ok tt, h') ∧ I h') ∨
    (∃ e h', forM_ l f h = (Raise e, h') ∧ E e).
Proof.
  induction l as [|x l IH]; intros Hf h HI.
  - left. by exists h.
  - destruct (Hf x h (list_elem_of_here _ _) HI)
      as [(h1 & E1 & HI1)|(e & h1 & E1 & He)].
    + destruct (IH (λ y k Hy, Hf y k (list_elem_of_further _ _ _ Hy)) h1 HI1)
        as [(h2 & E2 & HI2)|(e & h2 & E2 & He)].
      * left. exists h2. split; [|done]. simpl. by rewrite (bind_ok _ _ _ _ _ E1).
      * right. exists e, h2. split; [|done]. simpl. by rewrite (bind_ok _ _ _ _ _ E1).
    + right. exists e, h1. split; [|done]. simpl. unfold bind. by rewrite E1.
Qed.

(** A loop with an iteration that cannot succeed does not succeed. *)
Lemma forM_not_ok {A} (f : A → M unit) l x :
  x ∈ l → (∀ h h', f x h ≠ (Ok tt, h')) →
  ∀ h h', forM_ l f h ≠ (Ok tt, h').
Proof.
  induction l as [|y l IH]; intros Hx Hf h h' E.
  - by apply elem_of_nil in Hx.
  - apply forM_cons_inv in E as (h1 & E1 & E2).
    apply elem_of_cons in Hx as [->|Hx].
    + by apply (Hf h h1).
    + by apply (IH Hx Hf h1 h').
Qed.

Lemma add_parent_ok self parent h p :
  h !! self = Some p →
  add_parent self parent h = (Ok tt, <[self := with_parent p parent]> h).
Proof. intros E. unfold add_parent. by run_bind. Qed.

Lemma set_spouse_ok self sp h p :
  h !! self = Some p →
  set_spouse self sp h = (Ok tt, <[self := with_spouse p sp]> h).
Proof. intros E. unfold set_spouse. by run_bind. Qed.

Lemma get_person_inv r h p h' :
  get_person r h = (Ok p, h') → h !! r = Some p ∧ h' = h.
Proof.
  unfold get_person. destruct (h !! r); [|done]. by intros [= -> ->].
Qed.

Lemma add_parent_inv self parent h h' :
  add_parent self parent h = (Ok tt, h') →
  ∃ p, h !! self = Some p ∧ h' = <[self := with_parent p parent]> h.
Proof.
  unfold add_parent. intros E. apply bind_ok_inv in E as (p & h1 & E1 & E2).
  apply get_person_inv in E1 as [E1 ->]. exists p. split; [done|].
  unfold put_person in E2. by injection E2 as <-.
Qed.

Lemma set_spouse_inv self sp h h' :
  set_spouse self sp h = (Ok tt, h') →
  ∃ p, h !! self = Some p ∧ h' = <[self := with_spouse p sp]> h.
Proof.
  unfold set_spouse. intros E. apply bind_ok_inv in E as (p & h1 & E1 & E2).
  apply get_person_inv in E1 as [E1 ->]. exists p. split; [done|].
  unfold put_person in E2. by injection E2 as <-.
Qed.

Lemma dict_lookup_inv {K V} `{EqDecision K} `{PyKey K} (d : list (K * V)) k v h h' :
  dict_lookup d k h = (Ok v, h') → dict_get d k = Some v ∧ h' = h.
Proof.
  unfold dict_lookup. destruct (dict_get d k); [|done]. by intros [= -> ->].
Qed.

Lemma dict_keys_set {K V} `{EqDecision K} (d : list (K * V)) k v n :
  n ∈ dict_keys (dict_set d k v) ↔ n = k ∨ n ∈ dict_keys d.
Proof.
  rewrite <- !dict_get_is_Some. destruct (decide (k = n)) as [->|Hne].
  - rewrite dict_get_set_eq. split; [by left | by eexists].
  - rewrite dict_get_set_ne by done. split; [by right|].
    intros [->|?]; done.
Qed.

(** ** The first loop: one new object for each individual *)

Lemma individuals_fold (inds : list (string * string)) ks :
  (∀ k, k ∈ ks → k ∈ dict_keys inds) →
  ∀ people h,
    people_inj people → people_valid people h →
    ∃ people' news,
      foldM (λ people key,
               g <- dict_lookup inds key ;;
               newperson <- Person_init key g ;;
               nm <- attr_name newperson ;;
               ret (dict_set people nm newperson))
            people ks h
        = (Ok people', h ++ news) ∧
      people_inj people' ∧ people_valid people' (h ++ news) ∧
      Forall fresh_person news ∧
      (∀ n, n ∈ dict_keys people' ↔ n ∈ dict_keys people ∨ n ∈ ks) ∧
      (∀ n r, dict_get people' n = Some r →
              dict_get people n = Some r ∨ length h ≤ r).
Proof.
  induction ks as [|k ks IH]; intros Hks people h Hinj Hval.
  - exists people, []. rewrite app_nil_r. split_and!; try done.
    + intros n. rewrite elem_of_nil. tauto.
    + intros n r. by left.
  - destruct (proj2 (dict_get_is_Some inds k)) as [g Hg].
    { apply Hks, list_elem_of_here. }
    set (p := mkPerson k g [] None).
    assert (Hinj' : people_inj (dict_set people k (length h))).
    { intros n m r. destruct (decide (k = n)) as [<-|Hn];
        destruct (decide (k = m)) as [<-|Hm]; try done.
      - rewrite dict_get_set_eq, dict_get_set_ne by done.
        intros [= <-] Hm'. apply Hval in Hm'. lia.
      - rewrite dict_get_set_eq, dict_get_set_ne by done.
        intros Hn' [= <-]. apply Hval in Hn'. lia.
      - rewrite !dict_get_set_ne by done. apply Hinj. }
    assert (Hval' : people_valid (dict_set people k (length h)) (h ++ [p])).
    { intros n r. rewrite length_app. simpl.
      destruct (decide (k = n)) as [<-|Hn].
      - rewrite dict_get_set_eq. intros [= <-]. lia.
      - rewrite dict_get_set_ne by done. intros Hr. apply Hval in Hr. lia. }
    destruct (IH (λ n Hn, Hks n (list_elem_of_further _ _ _ Hn)) _ _ Hinj' Hval')
      as (people' & news & Hrun & Hinj2 & Hval2 & Hnews & Hkeys & Hold).
    exists people', (p :: news).
    replace (h ++ p :: news) with ((h ++ [p]) ++ news)
      by (by rewrite <- app_assoc).
    split_and!; try done.
    + simpl. erewrite bind_ok; [exact Hrun|].
      run_bind. erewrite bind_ok; [|reflexivity].
      erewrite bind_ok; [reflexivity|].
      apply (attr_name_ok _ p). by apply list_lookup_middle.
    + by constructor.
    + intros n. rewrite Hkeys, dict_keys_set, elem_of_cons. tauto.
    + intros n r Hr. apply Hold in Hr as [Hr|Hr].
      * destruct (decide (k = n)) as [<-|Hn].
        -- rewrite dict_get_set_eq in Hr. injection Hr as <-. by right.
        -- rewrite dict_get_set_ne in Hr by done. by left.
      * right. rewrite length_app in Hr. simpl in Hr. lia.
Qed.

Lemma init_individuals_spec d h :
  ∃ people news,
    init_individuals d h = (Ok people, h ++ news) ∧
    people_inj people ∧ people_valid people (h ++ news) ∧
    Forall fresh_person news ∧
    (∀ n, n ∈ dict_keys people ↔ n ∈ dict_keys (ds_individuals d)) ∧
    (∀ n r, dict_get people n = Some r → length h ≤ r).
Proof.
  destruct (individuals_fold (ds_individuals d) (dict_keys (ds_individuals d))
              (λ k Hk, Hk) [] h)
    as (people & news & Hrun & Hinj & Hval & Hnews & Hkeys & Hold).
  { intros n m r Hn. done. }
  { intros n r Hn. done. }
  exists people, news. split_and!; try done.
  - intros n. rewrite Hkeys. simpl. rewrite elem_of_nil. tauto.
  - intros n r Hr. by destruct (Hold n r Hr).
Qed.

(** ** The second and third loops: what they keep *)

Lemma init_parents_keeps (I : heap → Prop) d people :
  (∀ self parent h h',
     in_people people self → in_people people parent → I h →
     add_parent self parent h = (Ok tt, h') → I h') →
  ∀ h h', I h → init_parents d people h = (Ok tt, h') → I h'.
Proof.
  intros Hstep. unfold init_parents. apply forM_inv.
  intros person h h' _ HI E.
  apply bind_ok_inv in E as (personobj & h1 & E1 & E).
  apply dict_lookup_inv in E1 as [E1 ->].
  apply bind_ok_inv in E as (ps & h1 & E2 & E).
  apply dict_lookup_inv in E2 as [E2 ->].
  revert h h' HI E. apply forM_inv.
  intros parent h h' _ HI E.
  apply bind_ok_inv in E as (parentobj & h1 & E3 & E).
  apply dict_lookup_inv in E3 as [E3 ->].
  eapply Hstep; [by exists person|by exists parent|done|done].
Qed.

(** What a successful iteration of the third loop did. *)
Lemma init_couple_inv people pair h h' :
  init_couple people pair h = (Ok tt, h') →
  (pair = [] ∧ h' = h) ∨
  ∃ n1 n2 rest a b pa pb,
    pair = n1 :: n2 :: rest ∧
    dict_get people n1 = Some a ∧ dict_get people n2 = Some b ∧
    h !! a = Some pa ∧ <[a := with_spouse pa b]> h !! b = Some pb ∧
    h' = <[b := with_spouse pb a]> (<[a := with_spouse pa b]> h).
Proof.
  unfold init_couple. destruct pair as [|n1 [|n2 rest]]; simpl.
  - intros [= <-]. by left.
  - intros E. apply bind_ok_inv in E as (personone & h1 & [= <- <-] & E).
    apply bind_ok_inv in E as (a & h1 & E1 & E).
    apply bind_ok_inv in E as (? & ? & E2 & _). done.
  - intros E. right.
    apply bind_ok_inv in E as (personone & h1 & [= <- <-] & E).
    apply bind_ok_inv in E as (a & h1 & E1 & E).
    apply dict_lookup_inv in E1 as [E1 ->].
    apply bind_ok_inv in E as (persontwo & h1 & [= <- <-] & E).
    apply bind_ok_inv in E as (b & h1 & E2 & E).
    apply dict_lookup_inv in E2 as [E2 ->].
    apply bind_ok_inv in E as ([] & h1 & E3 & E).
    apply set_spouse_inv in E3 as (pa & Hpa & ->).
    apply set_spouse_inv in E as (pb & Hpb & ->).
    by exists n1, n2, rest, a, b, pa, pb.
Qed.

Lemma init_couples_keeps (I : heap → Prop) people couples :
  (∀ a b h h',
     in_people people a → in_people people b → I h →
     set_spouse a b h = (Ok tt, h') → I h') →
  ∀ h h', I h → init_couples people couples h = (Ok tt, h') → I h'.
Proof.
  intros Hstep. unfold init_couples. apply forM_inv.
  intros pair h h' _ HI E.
  apply init_couple_inv in E
    as [[_ ->]|(n1 & n2 & rest & a & b & pa & pb & _ & Ha & Hb & Hpa & Hpb & ->)];
    [done|].
  apply (Hstep b a (<[a := with_spouse pa b]> h)); [by exists n2|by exists n1| |].
  - apply (Hstep a b h); [by exists n1|by exists n2|done|].
    by apply set_spouse_ok.
  - by apply set_spouse_ok.
Qed.

(** Both loops keep the number of objects. *)
Lemma init_parents_length d people h h' :
  init_parents d people h = (Ok tt, h') → length h' = length h.
Proof.
  apply (init_parents_keeps (λ k, length k = length h)); [|done].
  intros self parent k k' _ _ Hk E.
  apply add_parent_inv in E as (p & _ & ->). by rewrite length_insert.
Qed.

Lemma init_couples_length people couples h h' :
  init_couples people couples h = (Ok tt, h') → length h' = length h.
Proof.
  apply (init_couples_keeps (λ k, length k = length h)); [|done].
  intros a b k k' _ _ Hk E.
  apply set_spouse_inv in E as (p & _ & ->). by rewrite length_insert.
Qed.

Lemma init_parents_no_spouse d people h h' :
  no_spouse h → init_parents d people h = (Ok tt, h') → no_spouse h'.
Proof.
  apply init_parents_keeps.
  intros self parent k k' _ _ Hk E.
  apply add_parent_inv in E as (p & Hp & ->).
  intros r q Hq. destruct (decide (self = r)) as [<-|Hne].
  - rewrite list_lookup_insert_eq in Hq by (by eapply lookup_lt_Some).
    injection Hq as <-. simpl. by apply (Hk self).
  - rewrite list_lookup_insert_ne in Hq by done. by apply (Hk r).
Qed.

(** ** Symmetry of the spouse links *)

(** Marrying two distinct unmarried objects keeps the links symmetric. *)
Lemma marry_symmetric h a b pa pb :
  a ≠ b → h !! a = Some pa → h !! b = Some pb →
  spouse pa = None → spouse pb = None → spouse_symmetric h →
  spouse_symmetric (<[b := with_spouse pb a]> (<[a := with_spouse pa b]> h)).
Proof.
  intros Hab Ha Hb Hsa Hsb Hsym.
  pose proof (lookup_lt_Some _ _ _ Ha) as Hla.
  pose proof (lookup_lt_Some _ _ _ Hb) as Hlb.
  assert (Hb1 : ∀ (g : heap), length g = length h →
            <[b := with_spouse pb a]> g !! b = Some (with_spouse pb a)).
  { intros g Hg. apply list_lookup_insert_eq. lia. }
  assert (Ha1 : <[b := with_spouse pb a]> (<[a := with_spouse pa b]> h) !! a
                = Some (with_spouse pa b)).
  { rewrite list_lookup_insert_ne by done. by apply list_lookup_insert_eq. }
  intros a0 b0 p0 Hp0 Hs0.
  destruct (decide (a0 = b)) as [->|Hnb].
  - rewrite Hb1 in Hp0 by (by rewrite length_insert).
    injection Hp0 as <-. simpl in Hs0. injection Hs0 as <-.
    by exists (with_spouse pa b).
  - rewrite list_lookup_insert_ne in Hp0 by done.
    destruct (decide (a0 = a)) as [->|Hna].
    + rewrite list_lookup_insert_eq in Hp0 by done.
      injection Hp0 as <-. simpl in Hs0. injection Hs0 as <-.
      exists (with_spouse pb a). split; [|done].
      apply Hb1. by rewrite length_insert.
    + rewrite list_lookup_insert_ne in Hp0 by done.
      destruct (Hsym a0 b0 p0 Hp0 Hs0) as (q & Hq & Hsq).
      exists q. split; [|done].
      rewrite !list_lookup_insert_ne; [done| |]; intros <-; congruence.
Qed.

Lemma init_couples_symmetric people :
  people_inj people →
  ∀ couples h h',
    NoDup (concat couples) →
    init_couples people couples h = (Ok tt, h') →
    spouse_symmetric h →
    (∀ r p, h !! r = Some p → spouse p ≠ None →
            ∃ n, (n ∉ concat couples) ∧ dict_get people n = Some r) →
    spouse_symmetric h'.
Proof.
  intros Hinj. induction couples as [|pair couples IH];
    intros h h' Hnd E Hsym Hmar.
  - simpl in E. by injection E as <-.
  - apply forM_cons_inv in E as (h1 & E1 & E2). simpl in Hnd.
    apply NoDup_app in Hnd as (Hnd1 & Hnd2 & Hnd3).
    apply init_couple_inv in E1
      as [[-> ->]|(n1 & n2 & rest & a & b & pa & pb & -> & Ha & Hb & Hpa & Hpb & ->)].
    + by apply (IH h h').
    + assert (Hfree : ∀ n r p, n ∈ n1 :: n2 :: rest →
                dict_get people n = Some r → h !! r = Some p → spouse p = None).
      { intros n r p Hn Hr Hp. destruct (spouse p) as [s|] eqn:Hs; [|done].
        destruct (Hmar r p Hp) as (m & Hm & Hmr); [congruence|].
        rewrite (Hinj _ _ _ Hmr Hr) in Hm. exfalso. apply Hm.
        rewrite concat_cons. apply elem_of_app. by left. }
      assert (Hab : a ≠ b).
      { intros ->. apply NoDup_cons in Hnd1 as [Hn1 _]. apply Hn1.
        rewrite (Hinj _ _ _ Ha Hb). apply list_elem_of_here. }
      rewrite list_lookup_insert_ne in Hpb by done.
      assert (Hsa : spouse pa = None).
      { apply (Hfree n1 a); [apply list_elem_of_here|done|done]. }
      assert (Hsb : spouse pb = None).
      { apply (Hfree n2 b); [|done|done].
        apply list_elem_of_further, list_elem_of_here. }
      apply (IH _ h' Hnd3 E2).
      * by apply marry_symmetric.
      * intros r p Hp Hs.
        destruct (decide (r = b)) as [->|Hrb].
        { exists n2. split; [|done]. intros Hin. apply (Hnd2 n2); [|done].
          apply list_elem_of_further, list_elem_of_here. }
        rewrite list_lookup_insert_ne in Hp by done.
        destruct (decide (r = a)) as [->|Hra].
        { exists n1. split; [|done]. intros Hin. apply (Hnd2 n1); [|done].
          apply list_elem_of_here. }
        rewrite list_lookup_insert_ne in Hp by done.
        destruct (Hmar r p Hp Hs) as (m & Hm & Hmr).
        exists m. split; [|done]. intros Hin. apply Hm.
        rewrite concat_cons. apply elem_of_app. by right.
Qed.

(** ** Closed stores *)

Lemma heap_closed_iff h :
  heap_closed h = true ↔
  ∀ r p, h !! r = Some p → person_closed (length h) p = true.
Proof.
  split; [intros Hc r p; by apply heap_closed_lookup|].
  intros Hc. unfold heap_closed. apply forallb_forall. intros p Hp.
  apply list_elem_of_In, list_elem_of_lookup in Hp as [r Hr]. by eapply Hc.
Qed.

Lemma heap_closed_insert h r p :
  heap_closed h = true → person_closed (length h) p = true →
  heap_closed (<[r := p]> h) = true.
Proof.
  rewrite !heap_closed_iff. intros Hc Hp r' p'. rewrite length_insert.
  rewrite list_lookup_insert_Some. intros [(_ & <- & _)|[_ Hr']]; [done|].
  by eapply Hc.
Qed.

Lemma heap_closed_fresh news :
  Forall fresh_person news → heap_closed news = true.
Proof.
  intros Hnews. apply heap_closed_iff. intros r p Hp.
  apply list_elem_of_lookup_2 in Hp.
  rewrite Forall_forall in Hnews. destruct (Hnews p Hp) as [Hps Hs].
  unfold person_closed. by rewrite Hps, Hs.
Qed.

Lemma person_closed_with_parent n p parent :
  person_closed n p = true → parent < n →
  person_closed n (with_parent p parent) = true.
Proof.
  unfold person_closed. simpl. rewrite !andb_true_iff, forallb_app.
  intros [Hps Hs] Hlt. split; [|done]. rewrite Hps. simpl.
  by rewrite (proj2 (Nat.ltb_lt _ _) Hlt).
Qed.

Lemma person_closed_with_spouse n p sp :
  person_closed n p = true → sp < n →
  person_closed n (with_spouse p sp) = true.
Proof.
  unfold person_closed. simpl. rewrite !andb_true_iff.
  intros [Hps Hs] Hlt. split; [done|]. by apply Nat.ltb_lt.
Qed.

(** What a successful construction went through. *)
Lemma Family_init_inv d h0 fam h :
  Family_init d h0 = (Ok fam, h) →
  ∃ people news h1,
    fam = mkFamily people d ∧
    people_inj people ∧ people_valid people (h0 ++ news) ∧
    Forall fresh_person news ∧
    (∀ n, n ∈ dict_keys people ↔ n ∈ dict_keys (ds_individuals d)) ∧
    init_parents d people (h0 ++ news) = (Ok tt, h1) ∧
    init_couples people (ds_couples d) h1 = (Ok tt, h).
Proof.
  unfold Family_init. intros E.
  destruct (init_individuals_spec d h0)
    as (people & news & Hrun & Hinj & Hval & Hnews & Hkeys & _).
  rewrite (bind_ok _ _ _ _ _ Hrun) in E.
  apply bind_ok_inv in E as ([] & h1 & E1 & E).
  apply bind_ok_inv in E as ([] & h2 & E2 & E).
  injection E as <- <-. by exists people, news, h1.
Qed.

(** The program builds closed stores, with every name resolved in them. *)
Lemma Family_init_wf d fam h :
  Family_init d [] = (Ok fam, h) → family_wf fam h = true.
Proof.
  intros E. apply Family_init_inv in E
    as (people & news & h1 & -> & Hinj & Hval & Hnews & Hkeys & E1 & E2).
  simpl in *.
  pose proof (init_parents_length _ _ _ _ E1) as Hl1.
  pose proof (init_couples_length _ _ _ _ E2) as Hl2.
  assert (Hc1 : heap_closed h1 = true).
  { assert (length h1 = length news ∧ heap_closed h1 = true) as [_ ?]; [|done].
    revert E1. apply (init_parents_keeps
      (λ k, length k = length news ∧ heap_closed k = true)).
    - intros self parent k k' _ [m Hm] [Hk Hck] E.
      apply add_parent_inv in E as (p & Hp & ->).
      rewrite length_insert. split; [done|].
      apply heap_closed_insert; [done|].
      apply person_closed_with_parent; [by eapply heap_closed_lookup|].
      rewrite Hk. by eapply Hval.
    - split; [done|]. by apply heap_closed_fresh. }
  assert (Hc2 : heap_closed h = true).
  { assert (length h = length news ∧ heap_closed h = true) as [_ ?]; [|done].
    revert E2. apply (init_couples_keeps
      (λ k, length k = length news ∧ heap_closed k = true)).
    - intros a b k k' _ [m Hm] [Hk Hck] E.
      apply set_spouse_inv in E as (p & Hp & ->).
      rewrite length_insert. split; [done|].
      apply heap_closed_insert; [done|].
      apply person_closed_with_spouse; [by eapply heap_closed_lookup|].
      rewrite Hk. by eapply Hval.
    - by split. }
  unfold family_wf. simpl. rewrite Hc2. simpl.
  apply forallb_forall. intros n Hn.
  apply list_elem_of_In, dict_get_is_Some in Hn as [r Hr]. rewrite Hr.
  apply Nat.ltb_lt. rewrite Hl2, Hl1. by eapply Hval.
Qed.

Lemma family_wf_lookup fam h n r :
  family_wf fam h = true → dict_get (people fam) n = Some r →
  heap_closed h = true ∧ r < length h.
Proof.
  unfold family_wf. rewrite andb_true_iff, forallb_forall.
  intros [Hc Hall] Hr. split; [done|].
  specialize (Hall n). rewrite Hr in Hall. apply Nat.ltb_lt, Hall.
  apply list_elem_of_In. by eapply dict_get_Some_key.
Qed.

(** ** How the construction can end *)

Lemma elem_of_concat {A} (l : list (list A)) y :
  y ∈ concat l ↔ ∃ x, x ∈ l ∧ y ∈ x.
Proof.
  rewrite list_elem_of_In, in_concat. setoid_rewrite list_elem_of_In. done.
Qed.

Lemma people_valid_length people h h' :
  people_valid people h → length h' = length h → people_valid people h'.
Proof. intros Hval Hl n r Hr. rewrite Hl. by eapply Hval. Qed.

(** An iteration of the third loop succeeds or raises: [KeyError] for a
    name that does not resolve, [IndexError] for a pair of one name. *)
Lemma init_couple_outcome (E : exn → Prop) people pair h :
  people_valid people h →
  (∀ n, n ∈ pair → dict_get people n = None → E (KeyError n)) →
  (length pair = 1 → E IndexError) →
  (∃ h', init_couple people pair h = (Ok tt, h') ∧ length h' = length h) ∨
  (∃ e h', init_couple people pair h = (Raise e, h') ∧ E e).
Proof.
  intros Hval Hkey Hidx. unfold init_couple.
  destruct pair as [|n1 [|n2 rest]]; simpl.
  - left. by exists h.
  - right. erewrite bind_ok; [|reflexivity].
    destruct (dict_get people n1) as [a|] eqn:Ha.
    + run_bind. exists IndexError, h. split; [done|]. by apply Hidx.
    + exists (KeyError n1), h. split.
      * unfold bind. by rewrite (dict_lookup_raise _ _ _ Ha).
      * apply Hkey; [apply list_elem_of_here|done].
  - erewrite bind_ok; [|reflexivity].
    destruct (dict_get people n1) as [a|] eqn:Ha.
    2:{ right. exists (KeyError n1), h. split.
        - unfold bind. by rewrite (dict_lookup_raise _ _ _ Ha).
        - apply Hkey; [apply list_elem_of_here|done]. }
    run_bind. erewrite bind_ok; [|reflexivity].
    destruct (dict_get people n2) as [b|] eqn:Hb.
    2:{ right. exists (KeyError n2), h. split.
        - unfold bind. by rewrite (dict_lookup_raise _ _ _ Hb).
        - apply Hkey; [|done]. apply list_elem_of_further, list_elem_of_here. }
    run_bind.
    destruct (lookup_lt_is_Some_2 h a (Hval _ _ Ha)) as [pa Hpa].
    destruct (lookup_lt_is_Some_2 (<[a := with_spouse pa b]> h) b) as [pb Hpb].
    { rewrite length_insert. by eapply Hval. }
    left. exists (<[b := with_spouse pb a]> (<[a := with_spouse pa b]> h)).
    split; [|by rewrite !length_insert].
    rewrite (bind_ok _ _ _ _ _ (set_spouse_ok a b h pa Hpa)).
    by apply set_spouse_ok.
Qed.

Lemma init_couples_outcome (E : exn → Prop) people couples h :
  people_valid people h →
  (∀ n, n ∈ concat couples → dict_get people n = None → E (KeyError n)) →
  (∀ pair, pair ∈ couples → length pair = 1 → E IndexError) →
  (∃ h', init_couples people couples h = (Ok tt, h') ∧ length h' = length h) ∨
  (∃ e h', init_couples people couples h = (Raise e, h') ∧ E e).
Proof.
  intros Hval Hkey Hidx. unfold init_couples.
  apply (forM_outcome (λ k, length k = length h)); [|done].
  intros pair k Hpair Hk.
  destruct (init_couple_outcome E people pair k) as [(k' & Hrun & Hk')|Hr].
  - by eapply people_valid_length.
  - intros n Hn. apply Hkey. apply elem_of_concat. by exists pair.
  - by apply Hidx.
  - left. exists k'. split; [done|congruence].
  - by right.
Qed.

(** The second loop succeeds or raises [KeyError] for a name that does
    not resolve. *)
Lemma init_parents_outcome (E : exn → Prop) d people h :
  people_valid people h →
  (∀ n, n ∈ dict_keys (ds_parents d) ++ concat (dict_values (ds_parents d)) →
        dict_get people n = None → E (KeyError n)) →
  (∃ h', init_parents d people h = (Ok tt, h') ∧ length h' = length h) ∨
  (∃ e h', init_parents d people h = (Raise e, h') ∧ E e).
Proof.
  intros Hval Hkey. unfold init_parents.
  apply (forM_outcome (λ k, length k = length h)); [|done].
  intros person k Hperson Hk.
  destruct (dict_get people person) as [personobj|] eqn:Hobj.
  2:{ right. exists (KeyError person), k. split.
      - unfold bind. by rewrite (dict_lookup_raise _ _ _ Hobj).
      - apply Hkey; [|done]. apply elem_of_app. by left. }
  run_bind.
  destruct (proj2 (dict_get_is_Some (ds_parents d) person) Hperson) as [ps Hps].
  run_bind.
  assert (Hin : ∀ n, n ∈ ps → dict_get people n = None → E (KeyError n)).
  { intros n Hn. apply Hkey. apply elem_of_app. right.
    apply elem_of_concat. exists ps. split; [|done].
    unfold dict_values. apply list_elem_of_fmap. exists (person, ps).
    split; [done|]. by apply dict_get_Some_elem. }
  clear Hps. revert k Hk.
  apply (forM_outcome (λ k, length k = length h)).
  intros parent k Hparent Hk.
  destruct (dict_get people parent) as [parentobj|] eqn:Hpobj.
  2:{ right. exists (KeyError parent), k. split.
      - unfold bind. by rewrite (dict_lookup_raise _ _ _ Hpobj).
      - by apply Hin. }
  run_bind.
  destruct (lookup_lt_is_Some_2 k personobj) as [p Hp].
  { rewrite Hk. by eapply Hval. }
  left. exists (<[personobj := with_parent p parentobj]> k).
  split; [by apply add_parent_ok | by rewrite length_insert].
Qed.

(** The construction returns a family, or raises [KeyError] for a name
    that is not registered or [IndexError] for a pair of one name. *)
Lemma Family_init_outcome (E : exn → Prop) d h :
  (∀ n, n ∈ names_of d → ¬ registered d n → E (KeyError n)) →
  (∀ pair, pair ∈ ds_couples d → length pair = 1 → E IndexError) →
  (∃ fam h', Family_init d h = (Ok fam, h')) ∨
  (∃ e h', Family_init d h = (Raise e, h') ∧ E e).
Proof.
  intros Hkey Hidx. unfold Family_init.
  destruct (init_individuals_spec d h)
    as (people & news & Hrun & Hinj & Hval & Hnews & Hkeys & _).
  rewrite (bind_ok _ _ _ _ _ Hrun).
  assert (Hnone : ∀ n, n ∈ names_of d → dict_get people n = None →
                       E (KeyError n)).
  { intros n Hn Hnone. apply Hkey; [done|]. unfold registered.
    rewrite <- Hkeys. by apply dict_get_None. }
  destruct (init_parents_outcome E d people (h ++ news) Hval)
    as [(h1 & E1 & Hl1)|(e & h1 & E1 & He)].
  { intros n Hn. apply Hnone. unfold names_of. rewrite app_assoc.
    apply elem_of_app. by left. }
  2:{ right. exists e, h1. split; [|done]. unfold bind. by rewrite E1. }
  rewrite (bind_ok _ _ _ _ _ E1).
  destruct (init_couples_outcome E people (ds_couples d) h1)
    as [(h2 & E2 & Hl2)|(e & h2 & E2 & He)].
  { by eapply people_valid_length. }
  { intros n Hn. apply Hnone. unfold names_of. rewrite app_assoc.
    apply elem_of_app. by right. }
  { done. }
  - left. exists (mkFamily people d), h2. by rewrite (bind_ok _ _ _ _ _ E2).
  - right. exists e, h2. split; [|done]. unfold bind. by rewrite E2.
Qed.

(** A pair of one name makes the construction fail. *)
Lemma Family_init_single_not_ok d pair :
  pair ∈ ds_couples d → length pair = 1 →
  ∀ h fam h', Family_init d h ≠ (Ok fam, h').
Proof.
  intros Hpair Hlen h fam h' E.
  apply Family_init_inv in E as (people & news & h1 & _ & _ & _ & _ & _ & _ & E).
  revert E. apply (forM_not_ok _ _ pair Hpair). intros k k' E.
  apply init_couple_inv in E as [[-> _]|(n1 & n2 & rest & ? & ? & ? & ? & -> & _)];
    simpl in Hlen; lia.
Qed.

(** An empty pair is skipped. *)
Lemma init_couples_skip_empty people cs1 cs2 h :
  init_couples people (cs1 ++ [] :: cs2) h = init_couples people (cs1 ++ cs2) h.
Proof.
  unfold init_couples. revert h. induction cs1 as [|pair cs1 IH]; intros h.
  - done.
  - simpl. unfold bind. destruct (init_couple people pair h) as [[[]| | |] h1];
      [apply IH|done|done|done].
Qed.

(** ** The families of the examples *)

Example siblings_built :
  Family_init Examples.siblings [] =
  (Ok (mkFamily [("Alice", 0); ("Bob", 1); ("Carol", 2); ("Dan", 3); ("Eve", 4)]
                Examples.siblings),
   [ mkPerson "Alice" "f" [2; 3] (Some 4);
     mkPerson "Bob" "m" [2; 3] None;
     mkPerson "Carol" "f" [] None;
     mkPerson "Dan" "m" [] None;
     mkPerson "Eve" "f" [] (Some 0) ]).
Proof. reflexivity. Qed.

Example remarried_built :
  Family_init Examples.remarried [] =
  (Ok (mkFamily [("Xi", 0); ("Avi", 1); ("Bea", 2); ("Yul", 3); ("Wen", 4);
                 ("Zoe", 5); ("Quin", 6); ("Rae", 7)] Examples.remarried),
   Examples.remarried_heap).
Proof. reflexivity. Qed.

Example stepmother_built :
  Family_init Examples.stepmother [] =
  (Ok (mkFamily [("Xi", 0); ("Avi", 1); ("Bea", 2); ("Yul", 3); ("Wen", 4);
                 ("Zoe", 5)] Examples.stepmother),
   Examples.stepmother_heap).
Proof. reflexivity. Qed.

(** In the smaller family the search from Xi never reaches Zoe, the wife
    of his great-grandfather: Yul was first reached through Wen. *)
Example stepmother_missing :
  connections 0 Examples.stepmother_heap =
    (Ok [(0, ""); (1, "P"); (4, "S"); (2, "PP"); (3, "SP")],
     Examples.stepmother_heap) ∧
  valid_path Examples.stepmother_heap 0 "PPPS" 5 = true.
Proof. split; reflexivity. Qed.

(** What the program answers in the family of the siblings. *)
Example siblings_relations :
  relation Examples.table Examples.siblings_family "Alice" "Bob"
    Examples.siblings_heap = (Ok (Some "sister"), Examples.siblings_heap) ∧
  relation Examples.table Examples.siblings_family "Carol" "Alice"
    Examples.siblings_heap = (Ok (Some "mother"), Examples.siblings_heap) ∧
  relation Examples.table Examples.siblings_family "Eve" "Alice"
    Examples.siblings_heap = (Ok (Some "wife"), Examples.siblings_heap) ∧
  relation Examples.table Examples.siblings_family "Dan" "Eve"
    Examples.siblings_heap
    = (Ok (Some "distant relative"), Examples.siblings_heap) ∧
  relation Examples.table Examples.siblings_family "Carol" "Dan"
    Examples.siblings_heap = (Ok None, Examples.siblings_heap).
Proof. split_and!; reflexivity. Qed.

(** * The claims *)

(** C4.  At most one spouse step: in every store of objects that refer
    to objects of the store, [connections] from any object returns a
    dictionary, and every path in it has at most one ["S"]. *)
Theorem connections_one_spouse_step h x :
  heap_closed h = true → x < length h →
  ∃ d, connections x h = (Ok d, h) ∧
       ∀ e, e ∈ d → str_count "S" e.2 ≤ 1.
Proof.
  intros Hc Hx. destruct (connections_spec h x Hc Hx) as (d & Hd & Hinv).
  exists d. split; [done|]. intros e He.
  by destruct (inv_walk _ _ _ _ _ Hinv e He).
Qed.

(** The search from Xi in the family of [Examples.remarried]. *)
Lemma connections_one_spouse_step_witness :
  ∃ d, connections 0 Examples.remarried_heap = (Ok d, Examples.remarried_heap) ∧
       ∀ e, e ∈ d → str_count "S" e.2 ≤ 1.
Proof.
  exact (connections_one_spouse_step Examples.remarried_heap 0 eq_refl
           ltac:(vm_compute; lia)).
Defined.

(** From Xi the search records ["SPPPP"] for Zoe, although ["PPPS"], a
    valid path with one spouse step, leads from Xi to Zoe and is shorter. *)
Example remarried_search :
  connections 0 Examples.remarried_heap =
    (Ok [(0, ""); (1, "P"); (4, "S"); (2, "PP"); (3, "SP"); (6, "SPP");
         (7, "SPPP"); (5, "SPPPP")],
     Examples.remarried_heap) ∧
  valid_path Examples.remarried_heap 0 "PPPS" 5 = true.
Proof. split; reflexivity. Qed.

(** C1, as stated, fails in the store of [Examples.remarried], searching
    from Xi: the path recorded for Zoe is not a shortest valid path. *)
Lemma connections_shortest_fails :
  ¬ ∃ d, connections 0 Examples.remarried_heap = (Ok d, Examples.remarried_heap) ∧
         (∀ y p, dict_get d y = Some p →
            valid_path Examples.remarried_heap 0 p y = true ∧
            ∀ q, valid_path Examples.remarried_heap 0 q y = true →
                 String.length p ≤ String.length q) ∧
         (∀ y q, valid_path Examples.remarried_heap 0 q y = true →
                 dict_mem y d = true).
Proof.
  intros (d & Hd & Hshort & _).
  destruct remarried_search as [Hrun Hvalid]. rewrite Hrun in Hd.
  injection Hd as <-.
  destruct (Hshort 5 "SPPPP" eq_refl) as [_ Hmin].
  specialize (Hmin "PPPS" Hvalid). simpl in Hmin. lia.
Qed.

(** The search matches every covered path: its end is a key, with a
    recorded path that is no longer. *)
Lemma final_covered h x d q y :
  bfs_inv h x (dict_keys d) d [] → covered_path h d x q y →
  ∃ p, dict_get d y = Some p ∧ String.length p ≤ String.length q.
Proof.
  intros Hinv. pose proof (final_start _ _ _ Hinv) as Hstart.
  intros [[HP Hw]|(q1 & q2 & u & pu & -> & HP1 & HP2 & Hw1 & Hu & HS & Hw2)].
  - destruct (final_parents _ _ _ Hinv q x y "" Hstart Hw HP) as (p & Hp & Hle).
    exists p. split; [done|]. simpl in Hle. lia.
  - destruct (final_parents _ _ _ Hinv q1 x u "" Hstart Hw1 HP1)
      as (pu' & Hpu' & Hle1).
    rewrite Hu in Hpu'. injection Hpu' as <-. simpl in Hle1.
    change ("S" +:+ q2) with (String "S" q2) in Hw2.
    apply walk_cons in Hw2 as (v & Hv & Hw2).
    destruct (inv_closure _ _ _ _ _ Hinv u pu "S"%char v) as (pv & Hpv & Hlev).
    { by eapply dict_get_Some_key. }
    { done. }
    { right. split; [done|]. by apply str_in_S. }
    { done. }
    destruct (final_parents _ _ _ Hinv q2 v y pv Hpv Hw2 HP2) as (p & Hp & Hle2).
    exists p. split; [done|]. rewrite !str_length_app. simpl. lia.
Qed.

(** C1, amended.  Every recorded path is a valid path from the start to
    its key.  It is no longer than any covered path from the start to
    that key: a path of parent steps only, or one that takes its spouse
    step from a person whose own recorded path has no spouse step (the
    start is one).  Whoever is reached by a covered path is a key. *)
Theorem connections_covered_paths h x :
  heap_closed h = true → x < length h →
  ∃ d, connections x h = (Ok d, h) ∧
       (∀ y p, dict_get d y = Some p →
          valid_path h x p y = true ∧
          ∀ q, covered_path h d x q y →
               String.length p ≤ String.length q) ∧
       (∀ y q, covered_path h d x q y → dict_mem y d = true).
Proof.
  intros Hc Hx. destruct (connections_spec h x Hc Hx) as (d & Hd & Hinv).
  exists d. split; [done|]. split.
  - intros y p Hy. destruct (final_walk _ _ _ _ _ Hinv Hy) as [Hw Hs].
    split.
    + unfold valid_path. rewrite Hw. simpl. by apply bool_decide_eq_true.
    + intros q Hq.
      destruct (final_covered _ _ _ _ _ Hinv Hq) as (py & Hpy & Hle).
      rewrite Hy in Hpy. by injection Hpy as <-.
  - intros y q Hq.
    destruct (final_covered _ _ _ _ _ Hinv Hq) as (py & Hpy & _).
    unfold dict_mem. by rewrite Hpy.
Qed.

(** The search from Xi in the family of [Examples.remarried]. *)
Lemma connections_covered_paths_witness :
  ∃ d, connections 0 Examples.remarried_heap = (Ok d, Examples.remarried_heap) ∧
       (∀ y p, dict_get d y = Some p →
          valid_path Examples.remarried_heap 0 p y = true ∧
          ∀ q, covered_path Examples.remarried_heap d 0 q y →
               String.length p ≤ String.length q) ∧
       (∀ y q, covered_path Examples.remarried_heap d 0 q y →
               dict_mem y d = true).
Proof.
  exact (connections_covered_paths Examples.remarried_heap 0 eq_refl
           ltac:(vm_compute; lia)).
Defined.

(** Wen, the wife of Xi, and Yul, her father, are reached by covered
    paths that take the spouse step from the start. *)
Example remarried_covered :
  covered_path Examples.remarried_heap
    [(0, ""); (1, "P"); (4, "S"); (2, "PP"); (3, "SP"); (6, "SPP");
     (7, "SPPP"); (5, "SPPPP")] 0 "S" 4 ∧
  covered_path Examples.remarried_heap
    [(0, ""); (1, "P"); (4, "S"); (2, "PP"); (3, "SP"); (6, "SPP");
     (7, "SPPP"); (5, "SPPPP")] 0 "SP" 3.
Proof.
  split; right.
  - by exists "", "", 0, "".
  - by exists "", "P", 0, "".
Qed.

(** C7.  The search terminates in every closed store, cyclic or not: the
    budget of [connections] is never exhausted, a larger budget gives the
    same dictionary, and at every moment of the loop the persons enqueued
    so far (those done, then those waiting) are exactly the keys of the
    dictionary, none of them twice. *)
Theorem connections_terminates h x :
  heap_closed h = true → x < length h →
  ∃ d, connections x h = (Ok d, h) ∧
       (∀ fuel, length h ≤ fuel →
          connections_loop fuel (dict_set [] x "") [x] h = (Ok d, h)) ∧
       ∀ n, ∃ done cdict queue,
         loop_iter n (dict_set [] x "") [x] h = (Ok (cdict, queue), h) ∧
         dict_keys cdict = done ++ queue ∧ NoDup (dict_keys cdict).
Proof.
  intros Hc Hx.
  pose proof (bfs_inv_init h x Hx) as Hinit.
  destruct (connections_loop_total h x Hc (length h) [] _ _ Hinit)
    as (d & Hd & Hfin); [simpl; lia|].
  exists d. split_and!.
  - unfold connections. by rewrite (bind_ok get_heap _ h h h eq_refl).
  - intros fuel Hfuel. by apply (connections_loop_fuel_mono (length h)).
  - intros n.
    destruct (loop_iter_inv h x Hc n [] _ _ Hinit)
      as (done & cdict & queue & Hrun & Hinv).
    exists done, cdict, queue. split_and!; [done| |].
    + by eapply inv_keys.
    + by eapply inv_nodup.
Qed.

(** The search in a store whose parent relation is a cycle. *)
Lemma connections_terminates_witness :
  ∃ d, connections 0 Examples.cyclic_heap = (Ok d, Examples.cyclic_heap) ∧
       (∀ fuel, length Examples.cyclic_heap ≤ fuel →
          connections_loop fuel (dict_set [] 0 "") [0] Examples.cyclic_heap
            = (Ok d, Examples.cyclic_heap)) ∧
       ∀ n, ∃ done cdict queue,
         loop_iter n (dict_set [] 0 "") [0] Examples.cyclic_heap
           = (Ok (cdict, queue), Examples.cyclic_heap) ∧
         dict_keys cdict = done ++ queue ∧ NoDup (dict_keys cdict).
Proof.
  exact (connections_terminates Examples.cyclic_heap 0 eq_refl
           ltac:(vm_compute; lia)).
Defined.

Lemma after_queries_id table qs : ∀ h, after_queries table h qs = h.
Proof.
  unfold after_queries. induction qs as [|q qs IH]; intros h; simpl; [done|].
  assert (after_query table h q = h) as ->; [|apply IH].
  destruct q; simpl.
  - apply readonly_connections.
  - apply readonly_relation_to.
  - apply readonly_relation.
Qed.

(** C9.  No call of [connections] or [relation_to] (or [relation])
    changes an object: after any number of them, the store, and so the
    name, gender, parents and spouse of every object in it, is what it
    was. *)
Theorem queries_leave_store table qs h :
  after_queries table h qs = h ∧
  ∀ r, after_queries table h qs !! r = h !! r.
Proof.
  split; [apply after_queries_id|]. intros r. by rewrite after_queries_id.
Qed.

(** C6.  A name that is not registered makes [relation] raise [KeyError]
    for that name; no term and no [None] is returned. *)
Theorem relation_unknown_name table fam name_one name_two h :
  (dict_get (people fam) name_one = None →
   relation table fam name_one name_two h = (Raise (KeyError name_one), h)) ∧
  (dict_mem name_one (people fam) = true →
   dict_get (people fam) name_two = None →
   relation table fam name_one name_two h = (Raise (KeyError name_two), h)).
Proof.
  unfold relation. split.
  - intros H1. unfold bind. by rewrite (dict_lookup_raise _ _ _ H1).
  - intros H1 H2. apply dict_mem_true, dict_get_is_Some in H1 as [a Ha].
    run_bind. unfold bind. by rewrite (dict_lookup_raise _ _ _ H2).
Qed.

(** Zed is not one of the siblings' family. *)
Lemma relation_unknown_name_witness :
  relation Examples.table Examples.siblings_family "Zed" "Alice" Examples.siblings_heap
    = (Raise (KeyError "Zed"), Examples.siblings_heap) ∧
  relation Examples.table Examples.siblings_family "Alice" "Zed" Examples.siblings_heap
    = (Raise (KeyError "Zed"), Examples.siblings_heap).
Proof.
  split.
  - exact (proj1 (relation_unknown_name Examples.table Examples.siblings_family
                    "Zed" "Alice" Examples.siblings_heap) eq_refl).
  - exact (proj2 (relation_unknown_name Examples.table Examples.siblings_family
                    "Alice" "Zed" Examples.siblings_heap) eq_refl eq_refl).
Defined.

Lemma term_for_not_none table h a code :
  (term_for table h a code).1 ≠ Ok None.
Proof.
  unfold term_for. destruct (dict_get table code) as [entry|]; [|done].
  destruct (h !! a) as [p|]; [|done].
  by destruct (dict_get entry (gender p)).
Qed.


Lemma relation_run table fam name_one name_two a b h :
  dict_get (people fam) name_one = Some a →
  dict_get (people fam) name_two = Some b →
  relation table fam name_one name_two h = relation_to table a b h.
Proof. intros Ha Hb. unfold relation. by do 2 run_bind. Qed.


(** C3.  For two registered names, [relation] returns [None] exactly when
    the two searches have no key in common. *)
Theorem relation_none_iff_disjoint table fam h name_one name_two a b :
  family_wf fam h = true →
  dict_get (people fam) name_one = Some a →
  dict_get (people fam) name_two = Some b →
  ∃ dA dB,
    connections a h = (Ok dA, h) ∧ connections b h = (Ok dB, h) ∧
    (relation table fam name_one name_two h = (Ok None, h) ↔
     ∀ k, k ∈ dict_keys dA → k ∉ dict_keys dB).
Proof.
  intros Hwf Ha Hb.
  destruct (family_wf_lookup _ _ _ _ Hwf Ha) as [Hc Hla].
  destruct (family_wf_lookup _ _ _ _ Hwf Hb) as [_ Hlb].
  destruct (connections_spec h a Hc Hla) as (dA & HdA & HinvA).
  destruct (connections_spec h b Hc Hlb) as (dB & HdB & HinvB).
  exists dA, dB. split; [done|]. split; [done|].
  rewrite (relation_run _ _ _ _ _ _ _ Ha Hb).
  rewrite (relation_to_run _ _ _ _ _ _ HdA HdB (inv_nodup _ _ _ _ _ HinvA)).
  destruct (shared_keys dA dB) as [|k0 ks] eqn:Hsh; simpl.
  - split; [|done]. intros _ k HkA HkB.
    assert (k ∈ shared_keys dA dB) as Hk by (by apply elem_shared_keys).
    rewrite Hsh in Hk. by apply elem_of_nil in Hk.
  - split.
    + intros E. exfalso. eapply term_for_not_none. by rewrite E.
    + intros Hdis. exfalso.
      assert (k0 ∈ shared_keys dA dB) as Hk
        by (rewrite Hsh; apply list_elem_of_here).
      apply elem_shared_keys in Hk as [HkA HkB]. by apply (Hdis k0).
Qed.

(** Carol and Dan, who have no parents and no spouse on record. *)
Lemma relation_none_iff_disjoint_witness :
  ∃ dA dB,
    connections 2 Examples.siblings_heap = (Ok dA, Examples.siblings_heap) ∧
    connections 3 Examples.siblings_heap = (Ok dB, Examples.siblings_heap) ∧
    (relation Examples.table Examples.siblings_family "Carol" "Dan"
       Examples.siblings_heap = (Ok None, Examples.siblings_heap) ↔
     ∀ k, k ∈ dict_keys dA → k ∉ dict_keys dB).
Proof.
  exact (relation_none_iff_disjoint Examples.table Examples.siblings_family
           Examples.siblings_heap "Carol" "Dan" 2 3 eq_refl eq_refl eq_refl).
Defined.

Example unlisted_built :
  Family_init Genders.unlisted [] =
  (Ok Genders.unlisted_family, Genders.unlisted_heap).
Proof. reflexivity. Qed.










(** C5, as stated, fails for [Examples.two_couples]: Bob's spouse is Ann,
    and Ann's spouse is Cy. *)
Lemma spouse_symmetry_fails :
  ¬ ∀ fam h, Family_init Examples.two_couples [] = (Ok fam, h) →
             spouse_symmetric h.
Proof.
  intros Hsym.
  destruct (Hsym _ _ eq_refl 1 0 (mkPerson "Bob" "m" [] (Some 0)) eq_refl eq_refl)
    as (pb & Hpb & Hs).
  injection Hpb as <-. done.
Qed.

(** C5, amended.  After the construction from a dataset whose couples
    name nobody twice, the spouse links are symmetric, and they remain so
    after any number of calls of [connections], [relation_to] and
    [relation]. *)
Theorem spouse_symmetry_disjoint_couples d fam h :
  Family_init d [] = (Ok fam, h) → NoDup (concat (ds_couples d)) →
  spouse_symmetric h ∧
  ∀ table qs, spouse_symmetric (after_queries table h qs).
Proof.
  intros E Hnd.
  assert (Hsym : spouse_symmetric h).
  { apply Family_init_inv in E
      as (people & news & h1 & -> & Hinj & Hval & Hnews & Hkeys & E1 & E2).
    simpl in *.
    assert (Hno : no_spouse h1).
    { apply (init_parents_no_spouse d people news); [|done].
      intros r p Hp. apply list_elem_of_lookup_2 in Hp.
      rewrite Forall_forall in Hnews. by destruct (Hnews p Hp). }
    apply (init_couples_symmetric people Hinj _ h1 h Hnd E2).
    - intros a b pa Hpa Hs. rewrite (Hno a pa Hpa) in Hs. done.
    - intros r p Hp Hs. by rewrite (Hno r p Hp) in Hs. }
  split; [done|]. intros table qs. by rewrite after_queries_id.
Qed.

(** The family of the siblings, with its one couple. *)
Lemma spouse_symmetry_disjoint_couples_witness :
  spouse_symmetric Examples.siblings_heap ∧
  ∀ table qs, spouse_symmetric (after_queries table Examples.siblings_heap qs).
Proof.
  exact (spouse_symmetry_disjoint_couples Examples.siblings
           Examples.siblings_family Examples.siblings_heap eq_refl
           ltac:(apply (bool_decide_unpack _); vm_compute; exact I)).
Defined.

(** The pair of [Examples.lone_unknown] names a person who is not
    registered: the construction ends with [KeyError] before it indexes
    the pair a second time. *)
Example lone_unknown_raises :
  Family_init Examples.lone_unknown [] =
  (Raise (KeyError "Zed"), [mkPerson "Ann" "f" [] None]).
Proof. reflexivity. Qed.

(** C8, as stated, fails for [Examples.lone_unknown]: its couples list has
    an entry of one identifier, and the construction does not end with
    an index out of range. *)
Lemma single_couple_key_error :
  ¬ ∀ pair, pair ∈ ds_couples Examples.lone_unknown → length pair = 1 →
            ∃ h', Family_init Examples.lone_unknown [] = (Raise IndexError, h').
Proof.
  intros Hclaim.
  destruct (Hclaim ["Zed"] (list_elem_of_here _ _) eq_refl) as [h' E].
  rewrite lone_unknown_raises in E. discriminate.
Qed.

(** C8, amended.  If the couples list has an entry of exactly one
    identifier, the construction fails and returns no family: with an
    index out of range if every name in the parents and couples data is
    registered, and otherwise with the exception raised before that
    point.  An entry of length zero is skipped without effect. *)
Theorem single_couple_fails d pair h :
  pair ∈ ds_couples d → length pair = 1 →
  (∃ e h', Family_init d h = (Raise e, h')) ∧
  ((∀ n, n ∈ names_of d → registered d n) →
   ∃ h', Family_init d h = (Raise IndexError, h')) ∧
  (∀ people cs1 cs2 k,
     init_couples people (cs1 ++ [] :: cs2) k
     = init_couples people (cs1 ++ cs2) k).
Proof.
  intros Hpair Hlen.
  pose proof (Family_init_single_not_ok d pair Hpair Hlen h) as Hnot.
  split_and!.
  - destruct (Family_init_outcome (λ _, True) d h)
      as [(fam & h' & E)|(e & h' & E & _)]; [done|done| |].
    + by destruct (Hnot fam h').
    + by exists e, h'.
  - intros Hreg.
    destruct (Family_init_outcome (λ e, e = IndexError) d h)
      as [(fam & h' & E)|(e & h' & E & ->)].
    + intros n Hn Hnr. by destruct (Hnr (Hreg n Hn)).
    + done.
    + by destruct (Hnot fam h').
    + by exists h'.
  - intros people cs1 cs2 k. apply init_couples_skip_empty.
Qed.

(** [Examples.lone_known]: every name is registered, and Ann is alone in
    a pair. *)
Lemma single_couple_fails_witness :
  (∃ e h', Family_init Examples.lone_known [] = (Raise e, h')) ∧
  (∃ h', Family_init Examples.lone_known [] = (Raise IndexError, h')) ∧
  (∀ people cs1 cs2 k,
     init_couples people (cs1 ++ [] :: cs2) k
     = init_couples people (cs1 ++ cs2) k).
Proof.
  destruct (single_couple_fails Examples.lone_known ["Ann"] [])
    as (H1 & H2 & H3).
  - apply list_elem_of_further, list_elem_of_here.
  - reflexivity.
  - split; [exact H1|]. split; [|exact H3]. apply H2.
    intros n Hn. unfold registered.
    apply (bool_decide_unpack _).
    revert n Hn. apply Forall_forall. apply (bool_decide_unpack _).
    vm_compute. exact I.
Defined.

(** * Further properties *)

(** ** A rule for further invariants of the search *)

(** What the invariant gives for the person at the head of the queue. *)
Lemma bfs_inv_head h x done cdict u queue :
  bfs_inv h x done cdict (u :: queue) →
  ∃ pu p, dict_get cdict u = Some pu ∧ h !! u = Some p.
Proof.
  intros Hinv.
  assert (Hu : u ∈ dict_keys cdict).
  { rewrite (inv_keys _ _ _ _ _ Hinv). apply elem_of_app. right.
    apply list_elem_of_here. }
  destruct (proj2 (dict_get_is_Some cdict u) Hu) as [pu Hpu].
  destruct (lookup_lt_is_Some_2 h u (inv_bound _ _ _ _ _ Hinv u Hu)) as [p Hp].
  by exists pu, p.
Qed.

(** A property [J] of the dictionary that every iteration keeps holds of
    the dictionary the loop returns. *)
Lemma connections_loop_rule h x (J : list (ref * string) → Prop) :
  heap_closed h = true →
  (∀ done cdict u pu p queue news,
     bfs_inv h x done cdict (u :: queue) → J cdict →
     dict_get cdict u = Some pu → h !! u = Some p →
     NoDup (dict_keys (cdict ++ news)) →
     (∀ e, e ∈ news →
        ∃ c, allowed pu c ∧ e.2 = pu +:+ String c "" ∧ e.1 ∈ step h u c) →
     J (cdict ++ news)) →
  ∀ fuel done cdict queue d h',
    bfs_inv h x done cdict queue → J cdict →
    connections_loop fuel cdict queue h = (Ok d, h') → J d.
Proof.
  intros Hc Hstep.
  induction fuel as [|fuel IH]; intros dn cdict [|u queue] d h' Hinv HJ E;
    simpl in E; try (by injection E as <-); [discriminate|].
  destruct (bfs_inv_head _ _ _ _ _ _ Hinv) as (pu & p & Hpu & Hp).
  destruct (loop_body_spec h cdict u pu p queue
              (inv_nodup _ _ _ _ _ Hinv) Hpu Hp)
    as (news & Hrun & Hnd & Hnew & _).
  destruct (bfs_inv_step _ _ _ _ _ _ Hc Hinv) as (cdict' & queue' & Hrun' & Hinv').
  rewrite Hrun in Hrun'. injection Hrun' as <- <-.
  rewrite (bind_ok _ _ _ _ _ Hrun) in E. simpl in E.
  apply (IH _ _ _ d h' Hinv'); [|done].
  by apply (Hstep dn cdict u pu p queue news).
Qed.

Lemma connections_rule h x (J : list (ref * string) → Prop) d :
  heap_closed h = true → x < length h →
  (∀ done cdict u pu p queue news,
     bfs_inv h x done cdict (u :: queue) → J cdict →
     dict_get cdict u = Some pu → h !! u = Some p →
     NoDup (dict_keys (cdict ++ news)) →
     (∀ e, e ∈ news →
        ∃ c, allowed pu c ∧ e.2 = pu +:+ String c "" ∧ e.1 ∈ step h u c) →
     J (cdict ++ news)) →
  J (dict_set [] x "") →
  connections x h = (Ok d, h) → J d.
Proof.
  intros Hc Hx Hstep HJ E. unfold connections in E.
  rewrite (bind_ok get_heap _ h h h eq_refl) in E.
  by apply (connections_loop_rule h x J Hc Hstep _ _ _ _ _ _
              (bfs_inv_init h x Hx) HJ E).
Qed.

(** The recorded paths form a tree rooted at the start. *)
Lemma connections_path_tree h x d :
  heap_closed h = true → x < length h →
  connections x h = (Ok d, h) → path_tree h d.
Proof.
  intros Hc Hx. apply (connections_rule h x (path_tree h)); [done|done| |].
  - intros done cdict u pu p queue news Hinv HJ Hpu Hp Hnd Hnew e He.
    apply elem_of_app in He as [He|He].
    + destruct (HJ e He) as [?|(v & pv & c & Hv & Hall & He2 & Hst)]; [by left|].
      right. exists v, pv, c. split_and!; try done.
      by rewrite dict_get_app, Hv.
    + right. destruct (Hnew e He) as (c & Hall & He2 & Hst).
      exists u, pu, c. split_and!; try done. by rewrite dict_get_app, Hpu.
  - intros e He. apply list_elem_of_singleton in He as ->. by left.
Qed.

(** A walk takes only parent and spouse steps. *)
Lemma walk_alphabet h path :
  ∀ x y, walk h x path y = true →
         str_count "P" path + str_count "S" path = String.length path.
Proof.
  induction path as [|c path IH]; intros x y Hw; [done|].
  apply walk_cons in Hw as (z & Hz & Hw). specialize (IH _ _ Hw).
  unfold step in Hz. destruct (h !! x) as [p|]; [|by apply elem_of_nil in Hz].
  simpl. destruct (decide (c = "P"%char)) as [->|HP].
  - simpl. lia.
  - destruct (decide (c = "S"%char)) as [->|HS]; [simpl; lia|].
    by apply elem_of_nil in Hz.
Qed.

(** ** The search: further properties *)

(** X1.  The start is the first key of the dictionary that [connections]
    returns, its path is empty, and no other key has an empty path. *)
Theorem connections_start h x :
  heap_closed h = true → x < length h →
  ∃ d, connections x h = (Ok d, h) ∧
       d !! 0 = Some (x, "") ∧ dict_get d x = Some "" ∧
       ∀ y, dict_get d y = Some "" → y = x.
Proof.
  intros Hc Hx. destruct (connections_spec h x Hc Hx) as (d & Hd & Hinv).
  exists d. split_and!; [done| | |].
  - by eapply inv_start.
  - by eapply final_start.
  - intros y Hy. destruct (final_walk _ _ _ _ _ Hinv Hy) as [Hw _].
    symmetry. by apply walk_nil in Hw.
Qed.

(** The search from Alice among the siblings. *)
Lemma connections_start_witness :
  ∃ d, connections 0 Examples.siblings_heap = (Ok d, Examples.siblings_heap) ∧
       d !! 0 = Some (0, "") ∧ dict_get d 0 = Some "" ∧
       ∀ y, dict_get d y = Some "" → y = 0.
Proof.
  exact (connections_start Examples.siblings_heap 0 eq_refl
           ltac:(vm_compute; lia)).
Defined.

(** X2.  The dictionary lists its keys in the order of their discovery,
    and the lengths of the paths never decrease along it; every path is
    made of the characters ["P"] and ["S"] only. *)
Theorem connections_by_length h x :
  heap_closed h = true → x < length h →
  ∃ d, connections x h = (Ok d, h) ∧
       (∀ i j ei ej, i ≤ j → d !! i = Some ei → d !! j = Some ej →
          String.length ei.2 ≤ String.length ej.2) ∧
       (∀ e, e ∈ d →
          str_count "P" e.2 + str_count "S" e.2 = String.length e.2).
Proof.
  intros Hc Hx. destruct (connections_spec h x Hc Hx) as (d & Hd & Hinv).
  exists d. split_and!; [done| |].
  - intros i j ei ej Hij Hi Hj.
    apply (inv_sorted _ _ _ _ _ Hinv i j ei ej Hij Hi Hj).
  - intros e He. destruct (inv_walk _ _ _ _ _ Hinv e He) as [Hw _].
    by eapply walk_alphabet.
Qed.

(** The search from Xi in the family of [Examples.remarried]. *)
Lemma connections_by_length_witness :
  ∃ d, connections 0 Examples.remarried_heap = (Ok d, Examples.remarried_heap) ∧
       (∀ i j ei ej, i ≤ j → d !! i = Some ei → d !! j = Some ej →
          String.length ei.2 ≤ String.length ej.2) ∧
       (∀ e, e ∈ d →
          str_count "P" e.2 + str_count "S" e.2 = String.length e.2).
Proof.
  exact (connections_by_length Examples.remarried_heap 0 eq_refl
           ltac:(vm_compute; lia)).
Defined.

(** X3.  Every key but the start was reached from another key: its path
    is the path of that key followed by ["P"], and it is a parent of that
    key, or followed by ["S"], and it is the spouse of that key, whose own
    path has no ["S"]. *)
Theorem connections_paths_extend h x :
  heap_closed h = true → x < length h →
  ∃ d, connections x h = (Ok d, h) ∧
       ∀ y path, dict_get d y = Some path → y ≠ x →
         ∃ u pu p,
           dict_get d u = Some pu ∧ h !! u = Some p ∧
           ((path = pu +:+ "P" ∧ y ∈ parents p) ∨
            (path = pu +:+ "S" ∧ spouse p = Some y ∧ str_in "S" pu = false)).
Proof.
  intros Hc Hx. destruct (connections_spec h x Hc Hx) as (d & Hd & Hinv).
  exists d. split; [done|]. intros y path Hy Hne.
  pose proof (connections_path_tree h x d Hc Hx Hd) as Htree.
  destruct (Htree (y, path) (dict_get_Some_elem _ _ _ Hy))
    as [Hnil|(u & pu & c & Hu & Hall & Hpath & Hst)]; simpl in *.
  - subst path. destruct (final_walk _ _ _ _ _ Hinv Hy) as [Hw _].
    apply walk_nil in Hw. congruence.
  - unfold step in Hst. destruct (h !! u) as [p|] eqn:Hp;
      [|by apply elem_of_nil in Hst].
    exists u, pu, p. split; [done|]. split; [done|].
    destruct Hall as [->|[-> Hz]]; simpl in Hst.
    + by left.
    + right. split; [done|]. split; [|by apply str_in_S].
      destruct (spouse p) as [s|]; simpl in Hst.
      * by apply list_elem_of_singleton in Hst as ->.
      * by apply elem_of_nil in Hst.
Qed.

(** The search from Xi in the family of [Examples.remarried]. *)
Lemma connections_paths_extend_witness :
  ∃ d, connections 0 Examples.remarried_heap = (Ok d, Examples.remarried_heap) ∧
       ∀ y path, dict_get d y = Some path → y ≠ 0 →
         ∃ u pu p,
           dict_get d u = Some pu ∧ Examples.remarried_heap !! u = Some p ∧
           ((path = pu +:+ "P" ∧ y ∈ parents p) ∨
            (path = pu +:+ "S" ∧ spouse p = Some y ∧ str_in "S" pu = false)).
Proof.
  exact (connections_paths_extend Examples.remarried_heap 0 eq_refl
           ltac:(vm_compute; lia)).
Defined.

(** X4.  The keys are closed under the steps of the search: every parent
    of a key is a key, and so is the spouse of a key whose path has no
    ["S"]; the path recorded for them is at most one step longer. *)
Theorem connections_closed_under_steps h x :
  heap_closed h = true → x < length h →
  ∃ d, connections x h = (Ok d, h) ∧
       ∀ u pu p, dict_get d u = Some pu → h !! u = Some p →
         (∀ q, q ∈ parents p →
            ∃ pq, dict_get d q = Some pq ∧
                  String.length pq ≤ S (String.length pu)) ∧
         (str_in "S" pu = false → ∀ s, spouse p = Some s →
            ∃ ps, dict_get d s = Some ps ∧
                  String.length ps ≤ S (String.length pu)).
Proof.
  intros Hc Hx. destruct (connections_spec h x Hc Hx) as (d & Hd & Hinv).
  exists d. split; [done|]. intros u pu p Hu Hp.
  pose proof (dict_get_Some_key _ _ _ Hu) as Hk. split.
  - intros q Hq.
    apply (inv_closure _ _ _ _ _ Hinv u pu "P"%char q Hk Hu); [by left|].
    by rewrite (step_P _ _ _ Hp).
  - intros HS s Hs.
    apply (inv_closure _ _ _ _ _ Hinv u pu "S"%char s Hk Hu).
    + right. split; [done|]. by apply str_in_S.
    + rewrite (step_S _ _ _ Hp), Hs. apply list_elem_of_here.
Qed.

(** The search from Xi in the family of [Examples.remarried]. *)
Lemma connections_closed_under_steps_witness :
  ∃ d, connections 0 Examples.remarried_heap = (Ok d, Examples.remarried_heap) ∧
       ∀ u pu p, dict_get d u = Some pu →
         Examples.remarried_heap !! u = Some p →
         (∀ q, q ∈ parents p →
            ∃ pq, dict_get d q = Some pq ∧
                  String.length pq ≤ S (String.length pu)) ∧
         (str_in "S" pu = false → ∀ s, spouse p = Some s →
            ∃ ps, dict_get d s = Some ps ∧
                  String.length ps ≤ S (String.length pu)).
Proof.
  exact (connections_closed_under_steps Examples.remarried_heap 0 eq_refl
           ltac:(vm_compute; lia)).
Defined.

(** X5.  A person without parents and without spouse is connected to
    nobody else: the dictionary has the one entry of the start. *)
Theorem connections_alone h x p :
  h !! x = Some p → parents p = [] → spouse p = None →
  connections x h = (Ok [(x, "")], h).
Proof.
  intros Hp Hps Hs. unfold connections.
  rewrite (bind_ok get_heap _ h h h eq_refl).
  destruct h as [|p0 h']; [done|]. simpl.
  assert (loop_body [(x, "")] x [] (p0 :: h') = (Ok ([(x, "")], []), p0 :: h'))
    as Hrun.
  { unfold loop_body. erewrite bind_ok.
    2:{ apply dict_lookup_ok. simpl. by rewrite decide_True. }
    do 2 run_bind. by rewrite Hps, Hs. }
  rewrite (bind_ok _ _ _ _ _ Hrun). simpl. by destruct (length h').
Qed.

(** Carol among the siblings. *)
Lemma connections_alone_witness :
  connections 2 Examples.siblings_heap = (Ok [(2, "")], Examples.siblings_heap).
Proof.
  exact (connections_alone Examples.siblings_heap 2
           (mkPerson "Carol" "f" [] None) eq_refl eq_refl eq_refl).
Defined.

(** ** The first iteration *)

Lemma loop_body_run h cdict u pu p queue :
  dict_get cdict u = Some pu → h !! u = Some p →
  loop_body cdict u queue h =
  (Ok (visit_spouse pu (spouse p)
         (foldl (visit_parent pu) (cdict, queue) (parents p))), h).
Proof. intros Hpu Hp. unfold loop_body. by do 3 run_bind. Qed.

Lemma visit_spouse_keeps pu sp (st : list (ref * string) * list ref) k v :
  dict_get st.1 k = Some v → dict_get (visit_spouse pu sp st).1 k = Some v.
Proof.
  intros Hk. unfold visit_spouse. destruct sp as [s|]; [|done].
  destruct (str_in "S" pu); simpl; [done|].
  destruct (dict_mem s st.1) eqn:Hs; simpl; [done|].
  apply dict_mem_false, dict_get_None in Hs.
  by rewrite (dict_set_fresh _ _ _ Hs), dict_get_app, Hk.
Qed.

(** A parent that is not yet a key gets the path of the person followed
    by ["P"], whether or not it is also the spouse. *)
Lemma loop_body_parent h cdict u pu p queue q :
  NoDup (dict_keys cdict) → dict_get cdict u = Some pu → h !! u = Some p →
  q ∈ parents p → q ∉ dict_keys cdict →
  ∃ st, loop_body cdict u queue h = (Ok st, h) ∧
        dict_get st.1 q = Some (pu +:+ "P").
Proof.
  intros Hnd Hpu Hp Hq Hfresh. eexists. split; [by apply loop_body_run|].
  destruct (visit_parents_spec pu (parents p) cdict queue Hnd)
    as (news & -> & Hnd' & Hnew & Hcov).
  apply visit_spouse_keeps. simpl.
  specialize (Hcov q Hq). apply elem_dict_keys in Hcov as ([q' v] & He & Hq').
  simpl in Hq'. subst q'. rewrite (elem_dict_get _ _ _ Hnd' He). f_equal.
  apply elem_of_app in He as [He|He].
  - exfalso. apply Hfresh. apply elem_dict_keys. by exists (q, v).
  - by destruct (Hnew _ He).
Qed.

(** The loop never changes an entry. *)
Lemma connections_loop_keeps h x k v :
  heap_closed h = true →
  ∀ fuel dn cdict queue d h',
    bfs_inv h x dn cdict queue → dict_get cdict k = Some v →
    connections_loop fuel cdict queue h = (Ok d, h') → dict_get d k = Some v.
Proof.
  intros Hc. apply (connections_loop_rule h x (λ c, dict_get c k = Some v) Hc).
  intros dn cdict u pu p queue news _ Hk _ _ _ _.
  by rewrite dict_get_app, Hk.
Qed.

(** The path recorded for a parent of the start is ["P"]. *)
Lemma connections_parent h b p a d :
  heap_closed h = true → h !! b = Some p → a ∈ parents p → a ≠ b →
  connections b h = (Ok d, h) → dict_get d a = Some "P".
Proof.
  intros Hc Hp Ha Hne E.
  pose proof (lookup_lt_Some _ _ _ Hp) as Hb.
  pose proof (bfs_inv_init h b Hb) as Hinit.
  unfold connections in E. rewrite (bind_ok get_heap _ h h h eq_refl) in E.
  destruct (length h) as [|n] eqn:Hlen; [lia|]. simpl in E.
  destruct (loop_body_parent h [(b, "")] b "" p [] a) as (st & Hrun & Hst).
  { apply NoDup_singleton. }
  { simpl. by rewrite decide_True. }
  { done. } { done. }
  { simpl. intros Hin. by apply list_elem_of_singleton in Hin. }
  destruct (bfs_inv_step _ _ _ _ _ _ Hc Hinit) as (cdict' & queue' & Hrun' & Hinv').
  simpl in Hrun'. rewrite Hrun in Hrun'. injection Hrun' as ->.
  rewrite (bind_ok _ _ _ _ _ Hrun) in E. simpl in E, Hst, Hinv'.
  by apply (connections_loop_keeps h b a "P" Hc _ _ _ _ _ _ Hinv' Hst E).
Qed.

(** ** [relation_to]: further properties *)

Lemma shared_keys_nil dA dB :
  shared_keys dA dB = [] ↔ ∀ k, k ∈ dict_keys dA → k ∉ dict_keys dB.
Proof.
  split.
  - intros Hsh k HA HB.
    assert (k ∈ shared_keys dA dB) as Hk by (by apply elem_shared_keys).
    rewrite Hsh in Hk. by apply elem_of_nil in Hk.
  - intros Hdis. destruct (shared_keys dA dB) as [|k ks] eqn:Hsh; [done|].
    assert (k ∈ shared_keys dA dB) as Hk by (rewrite Hsh; apply list_elem_of_here).
    apply elem_shared_keys in Hk as [HA HB]. by destruct (Hdis k).
Qed.

Lemma relation_to_none table h a b dA dB :
  connections a h = (Ok dA, h) → connections b h = (Ok dB, h) →
  NoDup (dict_keys dA) →
  relation_to table a b h = (Ok None, h) ↔ shared_keys dA dB = [].
Proof.
  intros HA HB Hnd. rewrite (relation_to_run _ _ _ _ _ _ HA HB Hnd).
  destruct (shared_keys dA dB) as [|k ks]; simpl; [done|].
  split; [|done]. intros E. exfalso. eapply term_for_not_none. by rewrite E.
Qed.

(** X6.  Being unrelated is symmetric: [relation_to] returns [None] for
    two persons exactly when it does for them in the other order. *)
Theorem relation_to_none_symmetric table h a b :
  heap_closed h = true → a < length h → b < length h →
  relation_to table a b h = (Ok None, h) ↔
  relation_to table b a h = (Ok None, h).
Proof.
  intros Hc Hla Hlb.
  destruct (connections_spec h a Hc Hla) as (dA & HdA & HinvA).
  destruct (connections_spec h b Hc Hlb) as (dB & HdB & HinvB).
  rewrite (relation_to_none _ _ _ _ _ _ HdA HdB (inv_nodup _ _ _ _ _ HinvA)).
  rewrite (relation_to_none _ _ _ _ _ _ HdB HdA (inv_nodup _ _ _ _ _ HinvB)).
  rewrite !shared_keys_nil. split; intros Hdis k H1 H2; by apply (Hdis k).
Qed.

(** Carol and Dan among the siblings. *)
Lemma relation_to_none_symmetric_witness :
  relation_to Examples.table 2 3 Examples.siblings_heap
    = (Ok None, Examples.siblings_heap) ↔
  relation_to Examples.table 3 2 Examples.siblings_heap
    = (Ok None, Examples.siblings_heap).
Proof.
  exact (relation_to_none_symmetric Examples.table Examples.siblings_heap 2 3
           eq_refl ltac:(vm_compute; lia) ltac:(vm_compute; lia)).
Defined.

(** X7.  [relation_to] ends in one of four ways: it returns [None], it
    returns ["distant relative"], it returns the term that the table
    holds for some code and the gender of [self], or it raises [KeyError]
    for that gender because the entry of the code lacks it.  It raises
    nothing else: [min] is never applied to an empty list, and no lookup
    of a path fails. *)
Theorem relation_to_outcomes table h a b p :
  heap_closed h = true → h !! a = Some p → b < length h →
  relation_to table a b h = (Ok None, h) ∨
  relation_to table a b h = (Ok (Some "distant relative"), h) ∨
  (∃ code entry t,
     dict_get table code = Some entry ∧ dict_get entry (gender p) = Some t ∧
     relation_to table a b h = (Ok (Some t), h)) ∨
  (∃ code entry,
     dict_get table code = Some entry ∧ dict_get entry (gender p) = None ∧
     relation_to table a b h = (Raise (KeyError (gender p)), h)).
Proof.
  intros Hc Hp Hlb. pose proof (lookup_lt_Some _ _ _ Hp) as Hla.
  destruct (connections_spec h a Hc Hla) as (dA & HdA & HinvA).
  destruct (connections_spec h b Hc Hlb) as (dB & HdB & HinvB).
  rewrite (relation_to_run _ _ _ _ _ _ HdA HdB (inv_nodup _ _ _ _ _ HinvA)).
  destruct (map (combined dA dB) (shared_keys dA dB)) as [|c cs]; [by left|].
  right. unfold term_for. rewrite Hp.
  destruct (dict_get table (min_len_from c cs)) as [entry|] eqn:Hcode;
    [|by left].
  right. destruct (dict_get entry (gender p)) as [t|] eqn:Ht.
  - left. by exists (min_len_from c cs), entry, t.
  - right. by exists (min_len_from c cs), entry.
Qed.

(** Alice and Bob among the siblings. *)
Lemma relation_to_outcomes_witness :
  relation_to Examples.table 0 1 Examples.siblings_heap
    = (Ok None, Examples.siblings_heap) ∨
  relation_to Examples.table 0 1 Examples.siblings_heap
    = (Ok (Some "distant relative"), Examples.siblings_heap) ∨
  (∃ code entry t,
     dict_get Examples.table code = Some entry ∧ dict_get entry "f" = Some t ∧
     relation_to Examples.table 0 1 Examples.siblings_heap
       = (Ok (Some t), Examples.siblings_heap)) ∨
  (∃ code entry,
     dict_get Examples.table code = Some entry ∧ dict_get entry "f" = None ∧
     relation_to Examples.table 0 1 Examples.siblings_heap
       = (Raise (KeyError "f"), Examples.siblings_heap)).
Proof.
  exact (relation_to_outcomes Examples.table Examples.siblings_heap 0 1
           (mkPerson "Alice" "f" [2; 3] (Some 4))
           eq_refl eq_refl ltac:(vm_compute; lia)).
Defined.

(** Every key but the start has a path of one step at least. *)
Lemma final_nonempty h x d y p :
  bfs_inv h x (dict_keys d) d [] → dict_get d y = Some p → y ≠ x →
  1 ≤ String.length p.
Proof.
  intros Hinv Hy Hne. destruct p as [|c p]; [|simpl; lia].
  destruct (final_walk _ _ _ _ _ Hinv Hy) as [Hw _].
  apply walk_nil in Hw. congruence.
Qed.

(** When [self] is a key of the other search with a path of one step at
    most, the first combined code is the one that is looked up. *)
Lemma relation_to_first table h a b dB pb :
  heap_closed h = true → a < length h →
  connections b h = (Ok dB, h) →
  dict_get dB a = Some pb → String.length pb ≤ 1 →
  relation_to table a b h = term_for table h a (":" +:+ pb).
Proof.
  intros Hc Hla HdB Hpb Hlen.
  destruct (connections_spec h a Hc Hla) as (dA & HdA & HinvA).
  pose proof (inv_nodup _ _ _ _ _ HinvA) as Hnd.
  rewrite (relation_to_run _ _ _ _ _ _ HdA HdB Hnd).
  pose proof (final_start _ _ _ HinvA) as Hstart.
  pose proof (inv_start _ _ _ _ _ HinvA) as H0.
  destruct dA as [|[k0 p0] dA']; [done|]. simpl in H0. injection H0 as -> ->.
  unfold shared_keys. simpl. unfold dict_mem at 1. rewrite Hpb. simpl.
  assert (combined ((a, "") :: dA') dB a = ":" +:+ pb) as ->.
  { unfold combined. by rewrite Hstart, Hpb. }
  rewrite min_len_from_first; [done|].
  intros s Hs. apply list_elem_of_fmap in Hs as (k & -> & Hk).
  apply list_elem_of_In, filter_In in Hk as [Hk _].
  apply list_elem_of_In in Hk.
  simpl in Hnd. apply NoDup_cons in Hnd as [Hnot _].
  assert (Hne : k ≠ a) by (intros ->; done).
  destruct (proj2 (dict_get_is_Some ((a, "") :: dA') k)) as [pk Hpk].
  { unfold dict_keys. simpl. by apply list_elem_of_further. }
  pose proof (final_nonempty _ _ _ _ _ HinvA Hpk Hne) as Hpos.
  unfold combined. rewrite Hpk. rewrite !str_length_app. simpl. lia.
Qed.

(** X8.  [relation_to] from a parent to a child looks up the code
    [":P"]: it returns the table's term for [":P"] and the parent's
    gender, whatever else the two have in common. *)
Theorem relation_to_parent table h a b pb :
  heap_closed h = true → a < length h →
  h !! b = Some pb → a ∈ parents pb → a ≠ b →
  relation_to table a b h = term_for table h a ":P".
Proof.
  intros Hc Hla Hpb Ha Hne.
  destruct (connections_spec h b Hc (lookup_lt_Some _ _ _ Hpb))
    as (dB & HdB & HinvB).
  apply (relation_to_first table h a b dB "P" Hc Hla HdB); [|simpl; lia].
  by apply (connections_parent h b pb a dB).
Qed.

(** Carol, the mother of Alice. *)
Lemma relation_to_parent_witness :
  relation_to Examples.table 2 0 Examples.siblings_heap
  = term_for Examples.table Examples.siblings_heap 2 ":P".
Proof.
  exact (relation_to_parent Examples.table Examples.siblings_heap 2 0
           (mkPerson "Alice" "f" [2; 3] (Some 4))
           eq_refl ltac:(vm_compute; lia) eq_refl
           ltac:(apply list_elem_of_here) ltac:(discriminate)).
Defined.

(** X9.  [relation_to] from the spouse of a person to that person looks
    up the code [":S"], provided the spouse is not also a parent of the
    person. *)
Theorem relation_to_spouse table h a b pb :
  heap_closed h = true → a < length h →
  h !! b = Some pb → spouse pb = Some a → a ∉ parents pb → a ≠ b →
  relation_to table a b h = term_for table h a ":S".
Proof.
  intros Hc Hla Hpb Hs Hnp Hne.
  destruct (connections_spec h b Hc (lookup_lt_Some _ _ _ Hpb))
    as (dB & HdB & HinvB).
  pose proof (final_start _ _ _ HinvB) as Hstart.
  destruct (inv_closure _ _ _ _ _ HinvB b "" "S"%char a) as (pa & Hpa & Hle).
  { by eapply dict_get_Some_key. }
  { done. } { by right. }
  { rewrite (step_S _ _ _ Hpb), Hs. apply list_elem_of_here. }
  pose proof (final_nonempty _ _ _ _ _ HinvB Hpa Hne) as Hpos.
  destruct (final_walk _ _ _ _ _ HinvB Hpa) as [Hw _].
  destruct pa as [|c [|c' pa]]; simpl in Hle, Hpos; try lia.
  apply walk_cons in Hw as (z & Hz & Hw). apply walk_nil in Hw as ->.
  unfold step in Hz. rewrite Hpb in Hz.
  destruct (decide (c = "P"%char)) as [->|HP]; [done|].
  destruct (decide (c = "S"%char)) as [->|HS]; [|by apply elem_of_nil in Hz].
  apply (relation_to_first table h a b dB "S" Hc Hla HdB Hpa). simpl. lia.
Qed.

(** Eve, the wife of Alice. *)
Lemma relation_to_spouse_witness :
  relation_to Examples.table 4 0 Examples.siblings_heap
  = term_for Examples.table Examples.siblings_heap 4 ":S".
Proof.
  exact (relation_to_spouse Examples.table Examples.siblings_heap 4 0
           (mkPerson "Alice" "f" [2; 3] (Some 4))
           eq_refl ltac:(vm_compute; lia) eq_refl eq_refl
           ltac:(apply (bool_decide_unpack _); vm_compute; exact I)
           ltac:(discriminate)).
Defined.

(** X10.  [relation_to] from a child to a parent looks up the code
    ["P:"], provided the child is not a key of the parent's search (the
    parent does not reach the child by parent and spouse steps). *)
Theorem relation_to_child table h a b pa dB :
  heap_closed h = true → b < length h →
  h !! a = Some pa → b ∈ parents pa → b ≠ a →
  connections b h = (Ok dB, h) → dict_get dB a = None →
  relation_to table a b h = term_for table h a "P:".
Proof.
  intros Hc Hlb Hpa Hb Hne HdB Hnone.
  pose proof (lookup_lt_Some _ _ _ Hpa) as Hla.
  destruct (connections_spec h a Hc Hla) as (dA & HdA & HinvA).
  destruct (connections_spec h b Hc Hlb) as (dB' & HdB' & HinvB).
  rewrite HdB in HdB'. injection HdB' as <-.
  rewrite (relation_to_run _ _ _ _ _ _ HdA HdB (inv_nodup _ _ _ _ _ HinvA)).
  pose proof (connections_parent h a pa b dA Hc Hpa Hb Hne HdA) as HbA.
  pose proof (final_start _ _ _ HinvB) as HbB.
  assert (Hin : "P:" ∈ map (combined dA dB) (shared_keys dA dB)).
  { apply list_elem_of_fmap. exists b. split.
    - unfold combined. by rewrite HbA, HbB.
    - apply elem_shared_keys. split; by eapply dict_get_Some_key. }
  destruct (map (combined dA dB) (shared_keys dA dB)) as [|c cs] eqn:Hcodes;
    [by apply elem_of_nil in Hin|].
  destruct (min_len_from_spec cs c) as [Hmem Hmin].
  specialize (Hmin "P:" Hin). rewrite <- Hcodes in Hmem.
  apply list_elem_of_fmap in Hmem as (k & Hk & Hks).
  apply elem_shared_keys in Hks as [HkA HkB].
  apply dict_get_is_Some in HkA as [pk HpkA].
  apply dict_get_is_Some in HkB as [qk HpkB].
  assert (k ≠ a) as Hka by (intros ->; congruence).
  pose proof (final_nonempty _ _ _ _ _ HinvA HpkA Hka) as Hpos.
  destruct (decide (k = b)) as [->|Hkb].
  - rewrite Hk. unfold combined. by rewrite HbA, HbB.
  - pose proof (final_nonempty _ _ _ _ _ HinvB HpkB Hkb) as Hpos'.
    rewrite Hk in Hmin. unfold combined in Hmin. rewrite HpkA, HpkB in Hmin.
    rewrite !str_length_app in Hmin. simpl in Hmin. lia.
Qed.

(** Alice, a daughter of Carol. *)
Lemma relation_to_child_witness :
  relation_to Examples.table 0 2 Examples.siblings_heap
  = term_for Examples.table Examples.siblings_heap 0 "P:".
Proof.
  exact (relation_to_child Examples.table Examples.siblings_heap 0 2
           (mkPerson "Alice" "f" [2; 3] (Some 4)) [(2, "")]
           eq_refl ltac:(vm_compute; lia) eq_refl
           ltac:(apply list_elem_of_here) ltac:(discriminate)
           eq_refl eq_refl).
Defined.

(** ** The construction: further properties *)

Lemma add_parents_nil p : add_parents p [] = p.
Proof. destruct p. unfold add_parents. simpl. by rewrite app_nil_r. Qed.

Lemma add_parents_app p l1 l2 :
  add_parents (add_parents p l1) l2 = add_parents p (l1 ++ l2).
Proof. unfold add_parents. simpl. by rewrite app_assoc. Qed.

Lemma with_parent_add_parents p q : with_parent p q = add_parents p [q].
Proof. done. Qed.

(** The loop inside the second loop appends the objects of the listed
    names, in order, to the parents of [personobj], and changes nothing
    else; it succeeds only if every listed name resolves. *)
Lemma add_parents_loop people personobj ps :
  ∀ h h',
    forM_ ps (λ parent,
      parentobj <- dict_lookup people parent ;;
      add_parent personobj parentobj) h = (Ok tt, h') →
    Forall (λ nm, is_Some (dict_get people nm)) ps ∧
    ∀ r p, h !! r = Some p →
      h' !! r = Some (if decide (personobj = r)
                      then add_parents p (resolve people ps) else p).
Proof.
  induction ps as [|parent ps IH]; intros h h' E.
  - simpl in E. injection E as <-. split; [constructor|].
    intros r p Hp. unfold resolve. simpl. rewrite add_parents_nil.
    by destruct (decide (personobj = r)).
  - apply forM_cons_inv in E as (h1 & E1 & E2).
    apply bind_ok_inv in E1 as (parentobj & h0 & E0 & E1).
    apply dict_lookup_inv in E0 as [E0 ->].
    apply add_parent_inv in E1 as (p0 & Hp0 & ->).
    destruct (IH _ _ E2) as [Hall Hrest]. split.
    + constructor; [by eexists | done].
    + intros r p Hp. unfold resolve. simpl. rewrite E0. simpl.
      fold (resolve people ps).
      destruct (decide (personobj = r)) as [<-|Hne].
      * rewrite Hp in Hp0. injection Hp0 as <-.
        rewrite (Hrest personobj (with_parent p parentobj)).
        2:{ apply list_lookup_insert_eq. by eapply lookup_lt_Some. }
        rewrite decide_True by done.
        by rewrite with_parent_add_parents, add_parents_app.
      * rewrite (Hrest r p).
        2:{ by rewrite list_lookup_insert_ne. }
        by rewrite decide_False.
Qed.

(** The second loop, over the keys [ks]: every object gets the parents
    that [added_parents] lists for it, and nothing else changes. *)
Lemma init_parents_loop d people ks :
  ∀ h h',
    forM_ ks (λ person,
      personobj <- dict_lookup people person ;;
      ps <- dict_lookup (ds_parents d) person ;;
      forM_ ps (λ parent,
        parentobj <- dict_lookup people parent ;;
        add_parent personobj parentobj)) h = (Ok tt, h') →
    (∀ k ps, k ∈ ks → dict_get (ds_parents d) k = Some ps →
             Forall (λ nm, is_Some (dict_get people nm)) ps) ∧
    ∀ r p, h !! r = Some p →
      h' !! r = Some (add_parents p (added_parents people (ds_parents d) ks r)).
Proof.
  induction ks as [|k ks IH]; intros h h' E.
  - simpl in E. injection E as <-. split.
    + intros k ps Hk. by apply elem_of_nil in Hk.
    + intros r p Hp. simpl. by rewrite add_parents_nil.
  - apply forM_cons_inv in E as (h1 & E1 & E2).
    apply bind_ok_inv in E1 as (personobj & h0 & E0 & E1).
    apply dict_lookup_inv in E0 as [Hobj ->].
    apply bind_ok_inv in E1 as (ps & h0 & E0 & E1).
    apply dict_lookup_inv in E0 as [Hps ->].
    destruct (add_parents_loop _ _ _ _ _ E1) as [Hall Hin].
    destruct (IH _ _ E2) as [Hall' Hrest]. split.
    + intros k' ps' Hk' Hps'. apply elem_of_cons in Hk' as [->|Hk'].
      * rewrite Hps in Hps'. by injection Hps' as <-.
      * by eapply Hall'.
    + intros r p Hp. simpl. rewrite Hobj, Hps. simpl.
      rewrite (Hrest r _ (Hin r p Hp)).
      destruct (decide (personobj = r)) as [->|Hne].
      * rewrite decide_True by done. by rewrite add_parents_app.
      * rewrite decide_False by congruence. done.
Qed.

(** With distinct keys and distinct objects for distinct names, the
    parents added to the object of [n] are those listed for [n]. *)
Lemma added_parents_inj people (pdata : list (string * list string)) n r :
  people_inj people → dict_get people n = Some r →
  ∀ ks, NoDup ks →
    added_parents people pdata ks r =
    if decide (n ∈ ks) then resolve people (default [] (dict_get pdata n))
    else [].
Proof.
  intros Hinj Hn. induction ks as [|k ks IH]; intros Hnd;
    cbn [added_parents].
  - rewrite decide_False; [done|]. apply not_elem_of_nil.
  - apply NoDup_cons in Hnd as [Hk Hnd]. rewrite (IH Hnd).
    destruct (decide (dict_get people k = Some r)) as [Hkr|Hkr].
    + pose proof (Hinj _ _ _ Hkr Hn) as ->.
      destruct (decide (n ∈ ks)) as [?|_]; [done|].
      destruct (decide (n ∈ n :: ks)) as [_|Hno]; [by rewrite app_nil_r|].
      destruct Hno. apply list_elem_of_here.
    + rewrite app_nil_l.
      destruct (decide (n ∈ ks)) as [Hin|Hin];
        destruct (decide (n ∈ k :: ks)) as [Hin'|Hin']; try done.
      * destruct Hin'. by apply list_elem_of_further.
      * apply elem_of_cons in Hin' as [->|Hin']; [congruence|done].
Qed.

Lemma resolve_Forall2 people names :
  Forall (λ nm, is_Some (dict_get people nm)) names →
  Forall2 (λ nm q, dict_get people nm = Some q) names (resolve people names).
Proof.
  induction 1 as [|nm names [q Hq] _ IH]; unfold resolve; simpl.
  - constructor.
  - rewrite Hq. simpl. by constructor.
Qed.

(** What one iteration of the first loop does. *)
Lemma init_individual_inv (inds : list (string * string)) people key h people' h' :
  (g <- dict_lookup inds key ;;
   newperson <- Person_init key g ;;
   nm <- attr_name newperson ;;
   ret (dict_set people nm newperson)) h = (Ok people', h') →
  ∃ g, dict_get inds key = Some g ∧
       h' = h ++ [mkPerson key g [] None] ∧
       people' = dict_set people key (length h).
Proof.
  intros E. apply bind_ok_inv in E as (g & h0 & E0 & E).
  apply dict_lookup_inv in E0 as [Hg ->].
  apply bind_ok_inv in E as (newperson & h1 & E1 & E).
  unfold Person_init in E1. injection E1 as <- <-.
  apply bind_ok_inv in E as (nm & h2 & E2 & E).
  unfold attr_name in E2. apply bind_ok_inv in E2 as (p & h3 & E3 & E2).
  apply get_person_inv in E3 as [Hp ->].
  rewrite list_lookup_middle in Hp by done. injection Hp as <-.
  unfold ret in E2, E. injection E2 as <- <-. injection E as <- <-.
  by exists g.
Qed.

Lemma individuals_fold_labels d ks :
  ∀ people h people' h',
    foldM (λ people key,
             g <- dict_lookup (ds_individuals d) key ;;
             newperson <- Person_init key g ;;
             nm <- attr_name newperson ;;
             ret (dict_set people nm newperson))
          people ks h = (Ok people', h') →
    people_valid people h → labelled d people h →
    length h' = length h + length ks ∧ labelled d people' h'.
Proof.
  induction ks as [|k ks IH]; intros people h people' h' E Hval Hlab.
  - simpl in E. injection E as <- <-. split; [simpl; lia | done].
  - simpl in E. apply bind_ok_inv in E as (people1 & h1 & E1 & E).
    apply init_individual_inv in E1 as (g & Hg & -> & ->).
    destruct (IH _ _ _ _ E) as [Hlen Hlab'].
    + intros n r. rewrite length_app. simpl.
      destruct (decide (k = n)) as [<-|Hn].
      * rewrite dict_get_set_eq. intros [= <-]. lia.
      * rewrite dict_get_set_ne by done. intros Hr. apply Hval in Hr. lia.
    + intros n r. destruct (decide (k = n)) as [<-|Hn].
      * rewrite dict_get_set_eq. intros [= <-].
        exists (mkPerson k g [] None). split_and!; [|done|done].
        by apply list_lookup_middle.
      * rewrite dict_get_set_ne by done. intros Hr.
        destruct (Hlab n r Hr) as (p & Hp & Hname & Hgen).
        exists p. split_and!; [|done|done].
        rewrite lookup_app_l; [done|]. by eapply lookup_lt_Some.
    + split; [|done]. rewrite Hlen, length_app. simpl. lia.
Qed.

(** The second and the third loop keep names and genders. *)
Lemma labelled_insert d people h r p p' :
  labelled d people h → h !! r = Some p →
  name p' = name p → gender p' = gender p →
  labelled d people (<[r := p']> h).
Proof.
  intros Hlab Hp Hname Hgen n r' Hr'.
  destruct (Hlab n r' Hr') as (q & Hq & Hqn & Hqg).
  destruct (decide (r = r')) as [<-|Hne].
  - exists p'. rewrite Hp in Hq. injection Hq as <-.
    split_and!; [|congruence|congruence].
    apply list_lookup_insert_eq. by eapply lookup_lt_Some.
  - exists q. split_and!; [|done|done]. by rewrite list_lookup_insert_ne.
Qed.

(** The parents and spouses that the loops set have names. *)
Lemma people_closed_insert people h r p p' :
  people_closed people h → h !! r = Some p →
  (∀ q, q ∈ parents p' → q ∈ parents p ∨ in_people people q) →
  (∀ s, spouse p' = Some s → spouse p = Some s ∨ in_people people s) →
  people_closed people (<[r := p']> h).
Proof.
  intros Hcl Hp Hps Hs r' q. rewrite list_lookup_insert_Some.
  intros [(_ & <- & _)|[_ Hq]]; [|by apply (Hcl r')].
  destruct (Hcl r p Hp) as [Hcp Hcs]. split.
  - intros y Hy. destruct (Hps y Hy) as [?|?]; [by apply Hcp | done].
  - intros s Hs'. destruct (Hs s Hs') as [?|?]; [by apply Hcs | done].
Qed.

(** A walk from an object with a name stays among the objects with
    names. *)
Lemma walk_in_people people h path :
  people_closed people h →
  ∀ x y, in_people people x → walk h x path y = true → in_people people y.
Proof.
  intros Hcl. induction path as [|c path IH]; intros x y Hx Hw.
  - apply walk_nil in Hw. by subst.
  - apply walk_cons in Hw as (z & Hz & Hw). apply (IH z y); [|done].
    unfold step in Hz. destruct (h !! x) as [p|] eqn:Hp;
      [|by apply elem_of_nil in Hz].
    destruct (Hcl x p Hp) as [Hcp Hcs].
    destruct (decide (c = "P"%char)); [by apply Hcp|].
    destruct (decide (c = "S"%char)); [|by apply elem_of_nil in Hz].
    destruct (spouse p) as [s|]; simpl in Hz; [|by apply elem_of_nil in Hz].
    apply list_elem_of_singleton in Hz as ->. by apply Hcs.
Qed.

(** What a successful construction from the empty store leaves. *)
Lemma Family_init_facts d fam h :
  Family_init d [] = (Ok fam, h) →
  length h = length (ds_individuals d) ∧
  labelled d (people fam) h ∧ people_closed (people fam) h.
Proof.
  intros E. unfold Family_init in E.
  apply bind_ok_inv in E as (people & h0 & E0 & E).
  apply bind_ok_inv in E as ([] & h1 & E1 & E).
  apply bind_ok_inv in E as ([] & h2 & E2 & E).
  injection E as <- <-. simpl.
  destruct (individuals_fold_labels d _ _ _ _ _ E0) as [Hlen Hlab].
  { intros n r Hr. done. } { intros n r Hr. done. }
  unfold dict_keys in Hlen. rewrite length_fmap in Hlen. simpl in Hlen.
  destruct (init_individuals_spec d []) as (people' & news & Hrun & _ & _ & Hnews & _).
  rewrite E0 in Hrun. simpl in Hrun. injection Hrun as <- <-. simpl in *.
  assert (Hcl0 : people_closed people h0).
  { intros r p Hp. apply list_elem_of_lookup_2 in Hp.
    rewrite Forall_forall in Hnews. destruct (Hnews p Hp) as [Hps Hs].
    rewrite Hps, Hs. split; [intros q Hq; by apply elem_of_nil in Hq | done]. }
  assert (H1 : length h1 = length h0 ∧ labelled d people h1 ∧
               people_closed people h1).
  { revert E1. apply (init_parents_keeps
      (λ k, length k = length h0 ∧ labelled d people k ∧ people_closed people k));
      [|done].
    intros self parent k k' _ Hparent (Hk & Hl & Hc) E1.
    apply add_parent_inv in E1 as (p & Hp & ->). split_and!.
    - by rewrite length_insert.
    - by apply (labelled_insert d people k self p).
    - apply (people_closed_insert people k self p); [done|done| |by left].
      simpl. intros q Hq. apply elem_of_app in Hq as [?|Hq]; [by left|].
      apply list_elem_of_singleton in Hq as ->. by right. }
  assert (H2 : length h2 = length h0 ∧ labelled d people h2 ∧
               people_closed people h2).
  { revert E2. apply (init_couples_keeps
      (λ k, length k = length h0 ∧ labelled d people k ∧ people_closed people k));
      [|done].
    intros a b k k' _ Hb (Hk & Hl & Hc) E2.
    apply set_spouse_inv in E2 as (p & Hp & ->). split_and!.
    - by rewrite length_insert.
    - by apply (labelled_insert d people k a p).
    - apply (people_closed_insert people k a p); [done|done|by left|].
      simpl. intros s [= <-]. by right. }
  destruct H2 as (Hl2 & Hlab2 & Hcl2). split_and!; [lia|done|done].
Qed.

(** The third loop leaves the parents of every object as they are. *)
Lemma init_couples_parents people couples h h' :
  init_couples people couples h = (Ok tt, h') →
  ∀ r, parents <$> (h' !! r) = parents <$> (h !! r).
Proof.
  apply (init_couples_keeps
    (λ k, ∀ r, parents <$> (k !! r) = parents <$> (h !! r))); [|done].
  intros a b k k' _ _ Hk E.
  apply set_spouse_inv in E as (p & Hp & ->). intros r.
  destruct (decide (a = r)) as [<-|Hne].
  - rewrite list_lookup_insert_eq by (by eapply lookup_lt_Some).
    rewrite <- Hk, Hp. done.
  - rewrite list_lookup_insert_ne by done. apply Hk.
Qed.

(** The third loop changes only the objects of the first two names of
    its pairs. *)
Lemma init_couples_untouched people :
  ∀ couples h h',
    init_couples people couples h = (Ok tt, h') →
    ∀ r, (∀ pair n, pair ∈ couples → n ∈ take 2 pair →
                    dict_get people n ≠ Some r) →
         h' !! r = h !! r.
Proof.
  induction couples as [|pair couples IH]; intros h h' E r Hr.
  - simpl in E. by injection E as <-.
  - apply forM_cons_inv in E as (h1 & E1 & E2).
    rewrite (IH _ _ E2 r).
    2:{ intros pair' n Hp. apply Hr. by apply list_elem_of_further. }
    apply init_couple_inv in E1
      as [[_ ->]|(n1 & n2 & rest & a & b & pa & pb & -> & Ha & Hb & _ & _ & ->)];
      [done|].
    rewrite !list_lookup_insert_ne; [done| |].
    + intros <-. apply (Hr (n1 :: n2 :: rest) n1); [apply list_elem_of_here| |done].
      simpl. apply list_elem_of_here.
    + intros <-. apply (Hr (n1 :: n2 :: rest) n2); [apply list_elem_of_here| |done].
      simpl. apply list_elem_of_further, list_elem_of_here.
Qed.

Lemma elem_of_take_concat (couples : list (list string)) pair n :
  pair ∈ couples → n ∈ take 2 pair → n ∈ concat couples.
Proof.
  intros Hp Hn. apply elem_of_concat. exists pair. split; [done|].
  rewrite <- (take_drop 2 pair). apply elem_of_app. by left.
Qed.

(** When no name occurs twice in the couples, the two persons of every
    pair are each other's spouse in the end. *)
Lemma init_couples_married people :
  people_inj people →
  ∀ couples h h',
    NoDup (concat couples) →
    init_couples people couples h = (Ok tt, h') →
    ∀ n1 n2 rest, (n1 :: n2 :: rest) ∈ couples →
      ∃ a b pa pb,
        dict_get people n1 = Some a ∧ dict_get people n2 = Some b ∧
        h' !! a = Some pa ∧ spouse pa = Some b ∧
        h' !! b = Some pb ∧ spouse pb = Some a.
Proof.
  intros Hinj. induction couples as [|pair couples IH];
    intros h h' Hnd E n1 n2 rest Hin.
  - by apply elem_of_nil in Hin.
  - apply forM_cons_inv in E as (h1 & E1 & E2).
    rewrite concat_cons in Hnd. apply NoDup_app in Hnd as (Hnd1 & Hnd2 & Hnd3).
    apply elem_of_cons in Hin as [<-|Hin];
      [|exact (IH h1 h' Hnd3 E2 n1 n2 rest Hin)].
    apply init_couple_inv in E1
      as [[? _]|(m1 & m2 & rest' & a & b & pa & pb & Heq & Ha & Hb & Hpa & Hpb & ->)];
      [done|].
    injection Heq as <- <- <-.
    assert (Hab : a ≠ b).
    { intros ->. apply NoDup_cons in Hnd1 as [Hn1 _]. apply Hn1.
      rewrite (Hinj _ _ _ Ha Hb). apply list_elem_of_here. }
    assert (Hkeep : ∀ n r, n ∈ n1 :: n2 :: rest → dict_get people n = Some r →
              h' !! r =
              <[b := with_spouse pb a]> (<[a := with_spouse pa b]> h) !! r).
    { intros n r Hn Hr. apply (init_couples_untouched people _ _ _ E2).
      intros pair' n' Hp' Hn' Hr'. apply (Hnd2 n Hn).
      rewrite (Hinj _ _ _ Hr Hr'). by eapply elem_of_take_concat. }
    pose proof (lookup_lt_Some _ _ _ Hpa) as Hla.
    pose proof (lookup_lt_Some _ _ _ Hpb) as Hlb.
    exists a, b, (with_spouse pa b), (with_spouse pb a).
    split_and!; try done.
    + rewrite (Hkeep n1 a (list_elem_of_here _ _) Ha).
      rewrite list_lookup_insert_ne by done.
      by apply list_lookup_insert_eq.
    + rewrite (Hkeep n2 b); [|apply list_elem_of_further, list_elem_of_here|done].
      by apply list_lookup_insert_eq.
Qed.

(** X11.  After a successful construction from the empty store the
    family keeps the dataset, the store has one object for each entry of
    the individuals, the registered names are the names of the
    individuals, distinct names resolve to distinct objects, and the
    object of a name carries that name and the gender given for it. *)
Theorem Family_init_registry d fam h :
  Family_init d [] = (Ok fam, h) →
  dict fam = d ∧
  length h = length (ds_individuals d) ∧
  (∀ n, dict_mem n (people fam) = true ↔ n ∈ dict_keys (ds_individuals d)) ∧
  (∀ n m r, dict_get (people fam) n = Some r →
            dict_get (people fam) m = Some r → n = m) ∧
  (∀ n r, dict_get (people fam) n = Some r →
     ∃ p, h !! r = Some p ∧ name p = n ∧
          dict_get (ds_individuals d) n = Some (gender p)).
Proof.
  intros E. destruct (Family_init_facts d fam h E) as (Hlen & Hlab & _).
  apply Family_init_inv in E
    as (people & news & h1 & -> & Hinj & _ & _ & Hkeys & _ & _).
  simpl in *. split_and!; try done.
  intros n. by rewrite dict_mem_true.
Qed.

(** The family of the siblings. *)
Lemma Family_init_registry_witness :
  dict Examples.siblings_family = Examples.siblings ∧
  length Examples.siblings_heap = length (ds_individuals Examples.siblings) ∧
  (∀ n, dict_mem n (people Examples.siblings_family) = true ↔
        n ∈ dict_keys (ds_individuals Examples.siblings)) ∧
  (∀ n m r, dict_get (people Examples.siblings_family) n = Some r →
            dict_get (people Examples.siblings_family) m = Some r → n = m) ∧
  (∀ n r, dict_get (people Examples.siblings_family) n = Some r →
     ∃ p, Examples.siblings_heap !! r = Some p ∧ name p = n ∧
          dict_get (ds_individuals Examples.siblings) n = Some (gender p)).
Proof.
  exact (Family_init_registry Examples.siblings Examples.siblings_family
           Examples.siblings_heap eq_refl).
Defined.

(** X12.  The construction ends in one of three ways: it returns a
    family; it raises [KeyError] for a name of the parents or couples
    data that is not a name of the individuals; or it raises [IndexError],
    and then some pair of the couples has exactly one name. *)
Theorem Family_init_errors d h :
  (∃ fam h', Family_init d h = (Ok fam, h')) ∨
  (∃ n h', Family_init d h = (Raise (KeyError n), h') ∧
           n ∈ names_of d ∧ ¬ registered d n) ∨
  (∃ pair h', Family_init d h = (Raise IndexError, h') ∧
              pair ∈ ds_couples d ∧ length pair = 1).
Proof.
  destruct (Family_init_outcome
    (λ e, (∃ n, e = KeyError n ∧ n ∈ names_of d ∧ ¬ registered d n) ∨
          (e = IndexError ∧ ∃ pair, pair ∈ ds_couples d ∧ length pair = 1))
    d h) as [Hok|(e & h' & E & [(n & -> & Hn & Hr)|(-> & pair & Hp & Hl)])].
  - intros n Hn Hr. left. by exists n.
  - intros pair Hp Hl. right. split; [done|]. by exists pair.
  - by left.
  - right. left. by exists n, h'.
  - right. right. by exists pair, h'.
Qed.

(** X13.  The construction returns a family whenever every name of the
    parents and couples data is a name of the individuals and no pair of
    the couples has exactly one name. *)
Theorem Family_init_succeeds d h :
  (∀ n, n ∈ names_of d → registered d n) →
  (∀ pair, pair ∈ ds_couples d → length pair ≠ 1) →
  ∃ fam h', Family_init d h = (Ok fam, h').
Proof.
  intros Hreg Hlen.
  destruct (Family_init_outcome (λ _, False) d h)
    as [Hok|(e & h' & _ & [])]; [| |done].
  - intros n Hn Hr. by apply Hr, Hreg.
  - intros pair Hp Hl. by apply (Hlen pair).
Qed.

(** The dataset of the siblings, with its empty pair. *)
Lemma Family_init_succeeds_witness :
  ∃ fam h', Family_init Examples.siblings [] = (Ok fam, h').
Proof.
  apply (Family_init_succeeds Examples.siblings []).
  - intros n Hn. unfold registered. apply (bool_decide_unpack _).
    revert n Hn. apply Forall_forall. apply (bool_decide_unpack _).
    vm_compute. exact I.
  - apply Forall_forall. apply (bool_decide_unpack _). vm_compute. exact I.
Defined.

(** X14.  When the keys of the parents data are distinct, a successful
    construction gives the object of every name, as its parents and in
    their order, the objects of the names that the parents data list for
    that name; a name without an entry gets no parents. *)
Theorem Family_init_parents d fam h :
  Family_init d [] = (Ok fam, h) → NoDup (dict_keys (ds_parents d)) →
  ∀ n r, dict_get (people fam) n = Some r →
    ∃ p, h !! r = Some p ∧
         Forall2 (λ nm q, dict_get (people fam) nm = Some q)
                 (default [] (dict_get (ds_parents d) n)) (parents p).
Proof.
  intros E Hnd n r Hr.
  pose proof (init_couples_parents) as Hkeep.
  apply Family_init_inv in E
    as (people & news & h1 & -> & Hinj & Hval & Hnews & Hkeys & E1 & E2).
  simpl in *. specialize (Hkeep _ _ _ _ E2 r).
  destruct (lookup_lt_is_Some_2 news r (Hval n r Hr)) as [p0 Hp0].
  destruct (init_parents_loop d people _ _ _ E1) as [Hall Hloop].
  specialize (Hloop r p0 Hp0). rewrite Hloop in Hkeep.
  destruct (h !! r) as [p|] eqn:Hp; [|done]. simpl in Hkeep.
  exists p. split; [done|]. injection Hkeep as ->.
  rewrite Forall_forall in Hnews.
  destruct (Hnews p0 (list_elem_of_lookup_2 _ _ _ Hp0)) as [-> _]. simpl.
  rewrite (added_parents_inj people _ n r Hinj Hr _ Hnd).
  destruct (dict_get (ds_parents d) n) as [ps|] eqn:Hps; simpl.
  - rewrite decide_True by (by eapply dict_get_Some_key).
    apply resolve_Forall2. apply (Hall n ps); [|done].
    by eapply dict_get_Some_key.
  - case_decide; constructor.
Qed.

(** Alice, among the siblings. *)
Lemma Family_init_parents_witness :
  ∃ p, Examples.siblings_heap !! 0 = Some p ∧
       Forall2 (λ nm q, dict_get (people Examples.siblings_family) nm = Some q)
               (default [] (dict_get (ds_parents Examples.siblings) "Alice"))
               (parents p).
Proof.
  exact (Family_init_parents Examples.siblings Examples.siblings_family
           Examples.siblings_heap eq_refl
           ltac:(apply (bool_decide_unpack _); vm_compute; exact I)
           "Alice" 0 eq_refl).
Defined.

(** X15.  When no name occurs twice in the couples, a successful
    construction makes the first two persons of every pair each other's
    spouse, and leaves every person whom the couples do not name without
    a spouse. *)
Theorem Family_init_couples d fam h :
  Family_init d [] = (Ok fam, h) → NoDup (concat (ds_couples d)) →
  (∀ n1 n2 rest, (n1 :: n2 :: rest) ∈ ds_couples d →
     ∃ a b pa pb,
       dict_get (people fam) n1 = Some a ∧ dict_get (people fam) n2 = Some b ∧
       h !! a = Some pa ∧ spouse pa = Some b ∧
       h !! b = Some pb ∧ spouse pb = Some a) ∧
  (∀ n r p, dict_get (people fam) n = Some r → n ∉ concat (ds_couples d) →
            h !! r = Some p → spouse p = None).
Proof.
  intros E Hnd.
  apply Family_init_inv in E
    as (people & news & h1 & -> & Hinj & Hval & Hnews & Hkeys & E1 & E2).
  simpl in *. split.
  - intros n1 n2 rest Hin.
    apply (init_couples_married people Hinj _ _ _ Hnd E2 n1 n2 rest Hin).
  - intros n r p Hr Hn Hp.
    rewrite (init_couples_untouched people _ _ _ E2 r) in Hp.
    + clear Hr. revert r p Hp.
      apply (init_parents_no_spouse d people news); [|done].
      intros r p Hp. apply list_elem_of_lookup_2 in Hp.
      rewrite Forall_forall in Hnews. by destruct (Hnews p Hp).
    + intros pair n' Hpair Hn' Hr'. apply Hn.
      rewrite (Hinj _ _ _ Hr Hr'). by eapply elem_of_take_concat.
Qed.

(** The family of the siblings: Alice and Eve are the one couple. *)
Lemma Family_init_couples_witness :
  (∀ n1 n2 rest, (n1 :: n2 :: rest) ∈ ds_couples Examples.siblings →
     ∃ a b pa pb,
       dict_get (people Examples.siblings_family) n1 = Some a ∧
       dict_get (people Examples.siblings_family) n2 = Some b ∧
       Examples.siblings_heap !! a = Some pa ∧ spouse pa = Some b ∧
       Examples.siblings_heap !! b = Some pb ∧ spouse pb = Some a) ∧
  (∀ n r p, dict_get (people Examples.siblings_family) n = Some r →
            n ∉ concat (ds_couples Examples.siblings) →
            Examples.siblings_heap !! r = Some p → spouse p = None).
Proof.
  exact (Family_init_couples Examples.siblings Examples.siblings_family
           Examples.siblings_heap eq_refl
           ltac:(apply (bool_decide_unpack _); vm_compute; exact I)).
Defined.

(** X16.  In a family that the construction returned, the search from a
    registered person returns, and every key of its dictionary is a
    registered person: an object of the store that bears the name it is
    registered under. *)
Theorem family_search_registered d fam h n x :
  Family_init d [] = (Ok fam, h) → dict_get (people fam) n = Some x →
  ∃ cdict, connections x h = (Ok cdict, h) ∧
    ∀ y, y ∈ dict_keys cdict →
      ∃ m p, dict_get (people fam) m = Some y ∧ h !! y = Some p ∧ name p = m.
Proof.
  intros E Hx.
  destruct (Family_init_facts d fam h E) as (_ & Hlab & Hcl).
  destruct (family_wf_lookup _ _ _ _ (Family_init_wf d fam h E) Hx) as [Hc Hlx].
  destruct (connections_spec h x Hc Hlx) as (cdict & Hd & Hinv).
  exists cdict. split; [done|]. intros y Hy.
  apply dict_get_is_Some in Hy as [path Hy].
  destruct (final_walk _ _ _ _ _ Hinv Hy) as [Hw _].
  destruct (walk_in_people (people fam) h path Hcl x y) as [m Hm];
    [by exists n | done |].
  destruct (Hlab m y Hm) as (p & Hp & Hname & _). by exists m, p.
Qed.

(** The search from Alice among the siblings. *)
Lemma family_search_registered_witness :
  ∃ cdict, connections 0 Examples.siblings_heap
             = (Ok cdict, Examples.siblings_heap) ∧
    ∀ y, y ∈ dict_keys cdict →
      ∃ m p, dict_get (people Examples.siblings_family) m = Some y ∧
             Examples.siblings_heap !! y = Some p ∧ name p = m.
Proof.
  exact (family_search_registered Examples.siblings Examples.siblings_family
           Examples.siblings_heap "Alice" 0 eq_refl eq_refl).
Defined.

(** ** The entry point *)

(** [main] after a successful construction: its line follows the answer
    of [relation], and an exception of [relation] is its own. *)
Lemma main_run table d fam h person person_two :
  Family_init d [] = (Ok fam, h) →
  main table d person person_two [] =
  match relation table fam person person_two h with
  | (Ok None, h') => (Ok (person +:+ " is not related to " +:+ person_two), h')
  | (Ok (Some t), h') =>
      (Ok (person +:+ " is " +:+ person_two +:+ "'s " +:+ t), h')
  | (Raise e, h') => (Raise e, h')
  | (NoFuel, h') => (NoFuel, h')
  | (NoObject, h') => (NoObject, h')
  end.
Proof.
  intros E. unfold main. rewrite (bind_ok _ _ _ _ _ E). unfold bind.
  by destruct (relation table fam person person_two h) as [[[t|]| | |] h'].
Qed.

(** X17.  For two registered names of a family that the construction
    returned, [main] prints that the first is not related to the second
    when the two searches share no key; when they share one, it prints
    the first name, the second name in the possessive and the term that
    [relation_to] returns, unless the table lookup raises [KeyError]. *)
Theorem main_prints table d fam h person person_two a b :
  Family_init d [] = (Ok fam, h) →
  dict_get (people fam) person = Some a →
  dict_get (people fam) person_two = Some b →
  ∃ dA dB,
    connections a h = (Ok dA, h) ∧ connections b h = (Ok dB, h) ∧
    ((∀ k, k ∈ dict_keys dA → k ∉ dict_keys dB) →
     main table d person person_two []
     = (Ok (person +:+ " is not related to " +:+ person_two), h)) ∧
    (∀ k, k ∈ dict_keys dA → k ∈ dict_keys dB →
       (∃ t, relation_to table a b h = (Ok (Some t), h) ∧
             main table d person person_two []
             = (Ok (person +:+ " is " +:+ person_two +:+ "'s " +:+ t), h)) ∨
       (∃ g, main table d person person_two [] = (Raise (KeyError g), h))).
Proof.
  intros E Ha Hb.
  pose proof (Family_init_wf d fam h E) as Hwf.
  destruct (family_wf_lookup _ _ _ _ Hwf Ha) as [Hc Hla].
  destruct (family_wf_lookup _ _ _ _ Hwf Hb) as [_ Hlb].
  destruct (connections_spec h a Hc Hla) as (dA & HdA & HinvA).
  destruct (connections_spec h b Hc Hlb) as (dB & HdB & HinvB).
  exists dA, dB. split; [done|]. split; [done|].
  rewrite (main_run table d fam h person person_two E).
  rewrite (relation_run _ _ _ _ _ _ _ Ha Hb).
  pose proof (relation_to_run table h a b dA dB HdA HdB
                (inv_nodup _ _ _ _ _ HinvA)) as Hrun.
  split.
  - intros Hdis. apply shared_keys_nil in Hdis.
    rewrite Hdis in Hrun. simpl in Hrun. by rewrite Hrun.
  - intros k HkA HkB.
    assert (Hk : k ∈ shared_keys dA dB) by (by apply elem_shared_keys).
    destruct (map (combined dA dB) (shared_keys dA dB)) as [|c cs] eqn:Hcodes.
    { apply (f_equal length) in Hcodes. rewrite length_map in Hcodes.
      destruct (shared_keys dA dB); [by apply elem_of_nil in Hk|done]. }
    rewrite Hrun. unfold term_for.
    destruct (dict_get table (min_len_from c cs)) as [entry|].
    + destruct (lookup_lt_is_Some_2 h a Hla) as [p ->].
      destruct (dict_get entry (gender p)) as [t|].
      * left. by exists t.
      * right. by exists (gender p).
    + left. by exists "distant relative".
Qed.

(** Alice and Bob, and the dataset of the siblings. *)
Lemma main_prints_witness :
  ∃ dA dB,
    connections 0 Examples.siblings_heap = (Ok dA, Examples.siblings_heap) ∧
    connections 1 Examples.siblings_heap = (Ok dB, Examples.siblings_heap) ∧
    ((∀ k, k ∈ dict_keys dA → k ∉ dict_keys dB) →
     main Examples.table Examples.siblings "Alice" "Bob" []
     = (Ok ("Alice" +:+ " is not related to " +:+ "Bob"),
        Examples.siblings_heap)) ∧
    (∀ k, k ∈ dict_keys dA → k ∈ dict_keys dB →
       (∃ t, relation_to Examples.table 0 1 Examples.siblings_heap
               = (Ok (Some t), Examples.siblings_heap) ∧
             main Examples.table Examples.siblings "Alice" "Bob" []
             = (Ok ("Alice" +:+ " is " +:+ "Bob" +:+ "'s " +:+ t),
                Examples.siblings_heap)) ∨
       (∃ g, main Examples.table Examples.siblings "Alice" "Bob" []
             = (Raise (KeyError g), Examples.siblings_heap))).
Proof.
  exact (main_prints Examples.table Examples.siblings Examples.siblings_family
           Examples.siblings_heap "Alice" "Bob" 0 1 eq_refl eq_refl eq_refl).
Defined.

(** X18.  When the construction returns a family and one of the two
    names is not a name of the individuals, [main] prints nothing and
    raises [KeyError] for the first such name. *)
Theorem main_unknown_name table d fam h person person_two :
  Family_init d [] = (Ok fam, h) →
  (¬ registered d person →
   main table d person person_two [] = (Raise (KeyError person), h)) ∧
  (registered d person → ¬ registered d person_two →
   main table d person person_two [] = (Raise (KeyError person_two), h)).
Proof.
  intros E. rewrite (main_run table d fam h person person_two E).
  apply Family_init_inv in E
    as (people & news & h1 & -> & _ & _ & _ & Hkeys & _ & _).
  unfold registered, relation. simpl. split.
  - intros Hno. rewrite <- Hkeys in Hno. apply dict_get_None in Hno.
    unfold bind. by rewrite (dict_lookup_raise _ _ _ Hno).
  - intros Hyes Hno. rewrite <- Hkeys in Hyes, Hno.
    apply dict_get_is_Some in Hyes as [a Ha]. apply dict_get_None in Hno.
    run_bind. unfold bind. by rewrite (dict_lookup_raise _ _ _ Hno).
Qed.

(** Zed is not one of the siblings. *)
Lemma main_unknown_name_witness :
  main Examples.table Examples.siblings "Zed" "Alice" []
    = (Raise (KeyError "Zed"), Examples.siblings_heap) ∧
  main Examples.table Examples.siblings "Alice" "Zed" []
    = (Raise (KeyError "Zed"), Examples.siblings_heap).
Proof.
  destruct (main_unknown_name Examples.table Examples.siblings
              Examples.siblings_family Examples.siblings_heap "Zed" "Alice"
              eq_refl) as [H1 _].
  destruct (main_unknown_name Examples.table Examples.siblings
              Examples.siblings_family Examples.siblings_heap "Alice" "Zed"
              eq_refl) as [_ H2].
  split.
  - apply H1. unfold registered. apply (bool_decide_unpack _).
    vm_compute. exact I.
  - apply H2; unfold registered; apply (bool_decide_unpack _);
      vm_compute; exact I.
Defined.

(** ** The methods that set the links *)

(** X19.  [add_parent] appends and checks nothing: calls for the objects
    [qs], in that order, leave [self] with its former parents followed by
    [qs], repetitions and [self] itself included, and change no other
    attribute and no other object. *)
Theorem add_parent_appends self qs :
  ∀ h p, h !! self = Some p →
    forM_ qs (add_parent self) h = (Ok tt, <[self := add_parents p qs]> h).
Proof.
  induction qs as [|q qs IH]; intros h p Hp.
  - simpl. by rewrite add_parents_nil, list_insert_id.
  - simpl. rewrite (bind_ok _ _ _ _ _ (add_parent_ok self q h p Hp)).
    rewrite (IH _ (with_parent p q)).
    + by rewrite list_insert_insert_eq, with_parent_add_parents, add_parents_app.
    + apply list_lookup_insert_eq. by eapply lookup_lt_Some.
Qed.

(** Carol gets Dan as a parent twice, and herself. *)
Lemma add_parent_appends_witness :
  forM_ [3; 3; 2] (add_parent 2) Examples.siblings_heap =
  (Ok tt, <[2 := add_parents (mkPerson "Carol" "f" [] None) [3; 3; 2]]>
            Examples.siblings_heap).
Proof.
  exact (add_parent_appends 2 [3; 3; 2] Examples.siblings_heap
           (mkPerson "Carol" "f" [] None) eq_refl).
Defined.

(** X20.  [set_spouse] overwrites: after two calls for the same person
    the spouse is the one set last, as if the first call had not been
    made, and no other object has changed, the spouse set first included. *)
Theorem set_spouse_overwrites self s1 s2 h p :
  h !! self = Some p →
  (set_spouse self s1 ;;; set_spouse self s2) h
    = (Ok tt, <[self := with_spouse p s2]> h) ∧
  (set_spouse self s1 ;;; set_spouse self s2) h = set_spouse self s2 h ∧
  ∀ r, r ≠ self → <[self := with_spouse p s2]> h !! r = h !! r.
Proof.
  intros Hp.
  assert ((set_spouse self s1 ;;; set_spouse self s2) h
          = (Ok tt, <[self := with_spouse p s2]> h)) as Hrun.
  { rewrite (bind_ok _ _ _ _ _ (set_spouse_ok self s1 h p Hp)).
    rewrite (set_spouse_ok self s2 _ (with_spouse p s1)).
    - by rewrite list_insert_insert_eq.
    - apply list_lookup_insert_eq. by eapply lookup_lt_Some. }
  split_and!; [done| |].
  - by rewrite Hrun, (set_spouse_ok self s2 h p Hp).
  - intros r Hr. by rewrite list_lookup_insert_ne.
Qed.

(** Alice, whose spouse is set to Bob and then to Dan. *)
Lemma set_spouse_overwrites_witness :
  (set_spouse 0 1 ;;; set_spouse 0 3) Examples.siblings_heap
    = (Ok tt, <[0 := with_spouse (mkPerson "Alice" "f" [2; 3] (Some 4)) 3]>
                Examples.siblings_heap) ∧
  (set_spouse 0 1 ;;; set_spouse 0 3) Examples.siblings_heap
    = set_spouse 0 3 Examples.siblings_heap ∧
  ∀ r, r ≠ 0 →
    <[0 := with_spouse (mkPerson "Alice" "f" [2; 3] (Some 4)) 3]>
      Examples.siblings_heap !! r = Examples.siblings_heap !! r.
Proof.
  exact (set_spouse_overwrites 0 1 3 Examples.siblings_heap
           (mkPerson "Alice" "f" [2; 3] (Some 4)) eq_refl).
Defined.
